(** * pg-queue worker: the dispatcher loop of [workers/python/worker.py]

    The worker keeps a dict [jobs] (job id -> [Job]) and runs forever:
    on every iteration it may ask the store to release lost jobs, reaps
    finished and timed-out children ([complete_jobs]), waits for a
    notification on the LISTEN connection, and claims new jobs.  Each job
    runs [Job.run] in a child process, which sends its result back, in
    one message at most.

    The code is embedded as programs of a small free monad: every call
    that leaves the dispatcher (database, child process, clock, pipe,
    stdout) and every access to the dict [jobs] is an operation; running
    a program against a dict and an environment yields the list of the
    operations performed, in order, with their answers.  The environment
    is arbitrary: what is proved of a run holds whatever the store, the
    children and the clock answer, unless a property of them is stated
    as a hypothesis.

    [workers/python/db.py], which the worker and [test.py] call for their
    statements, is embedded the same way in the module [Db]: the
    connection a thread keeps in [ctx.pgconns], the environment
    [connect] reads, and the cursor of a query. *)

From Stdlib Require Import ZArith List String Ascii Bool Lia Arith Permutation.
Import ListNotations.

Set Implicit Arguments.
Local Open Scope string_scope.
Local Open Scope Z_scope.
Local Open Scope list_scope.

(** ** Data *)

(** Values that travel in a job payload or come back as a result; an
    object of another kind is known by its [repr] only, and pickling it
    may fail. *)
Inductive value : Type :=
| VNone
| VInt (z : Z)
| VBool (b : bool)
| VStr (s : string)
| VObject (repr : string).

Definition JobId := string.

(** [row["payload"]]: a JSON object; a key may be missing. *)
Record Payload := mkPayload {
  p_func : option string;
  p_args : option (list value);
  p_kwargs : option (list (string * value))
}.

(** A row of the job table, as the store hands it out: the columns the
    worker reads.  Time stamps are clock readings in microseconds,
    [timeout] is in seconds. *)
Record Row := mkRow {
  r_id : JobId;
  r_payload : Payload;
  r_started_at : Z;
  r_timeout : Z
}.

(** What the child puts on the pipe: [{"result": ..., "exc": ...}]. *)
Record Msg := mkMsg {
  m_result : value;
  m_exc : option string
}.

(** The dict sent to [finish_job] / [fail_job]:
    [{"result": ..., "exc": ..., "exitcode": ...}]. *)
Record Result := mkResult {
  res_result : value;
  res_exc : option string;
  res_exitcode : option Z
}.

(** Handle of a started [multiprocessing.Process] together with the read
    end of its pipe. *)
Definition Proc := nat.

(** [class Job]: [_row], [_pipe]/[_process], and [_result], which is
    [NOT_DONE] ([None] here) until the pipe has been read. *)
Record Job := mkJob {
  j_row : Row;
  j_process : Proc;
  j_result : option Msg
}.

(** An entry of [conn.notifies]; [n_payload_split] is what
    [notify.payload.split()] yields. *)
Record Notify := mkNotify {
  n_pid : Z;
  n_channel : string;
  n_payload_split : list string
}.

(** Python truth value of [result["exc"]]: [None] and the empty string
    are false. *)
Definition truthy (exc : option string) : bool :=
  match exc with
  | None => false
  | Some s => negb (String.eqb s "")
  end.

(** Exceptions.  The first four are raised by the worker's own code
    (assert, dict lookup, unpacking, [Process.close], [recv] on a pipe
    whose other end is gone); the last two by imported code:
    [UserException] is an instance of [Exception], [SystemExiting] is not
    (SystemExit, KeyboardInterrupt, ...). *)
Inductive exn : Type :=
| AssertionError
| KeyError
| ValueError
| EOFError
| UserException (name : string)
| SystemExiting (name : string).

Definition isinstance_Exception (e : exn) : bool :=
  match e with
  | SystemExiting _ => false
  | _ => true
  end.

(** ** The dict [jobs]

    A Python dict keeps insertion order and has no duplicate key: an
    association list, new keys appended. *)
Definition Registry := list (JobId * Job).

Definition keys (reg : Registry) : list JobId := map fst reg.

Definition contains (k : JobId) (reg : Registry) : bool :=
  existsb (fun e => String.eqb k (fst e)) reg.

Fixpoint lookup (k : JobId) (reg : Registry) : option Job :=
  match reg with
  | [] => None
  | (k', j) :: reg' => if String.eqb k k' then Some j else lookup k reg'
  end.

Fixpoint remove (k : JobId) (reg : Registry) : Registry :=
  match reg with
  | [] => []
  | (k', j) :: reg' =>
      if String.eqb k k' then reg' else (k', j) :: remove k reg'
  end.

(** [jobs[k] = j] *)
Fixpoint setitem (k : JobId) (j : Job) (reg : Registry) : Registry :=
  match reg with
  | [] => [(k, j)]
  | (k', j') :: reg' =>
      if String.eqb k k' then (k, j) :: reg' else (k', j') :: setitem k j reg'
  end.

Definition len (reg : Registry) : Z := Z.of_nat (List.length reg).

Arguments contains : simpl never.
Arguments len : simpl never.

(** ** Operations *)

(** The five stored functions the worker calls through [db.fetchall]. *)
Inductive Query : Type :=
| release_lost_jobs (worker_id : string) (queues : list string) (ids : list JobId)
| reserve_job (job_id : JobId) (worker_id : string)
| reserve_jobs_from_queues (queues : list string) (worker_id : string) (n : Z)
| finish_job (job_id : JobId) (result : Result)
| fail_job (job_id : JobId) (result : Result).

Inductive LogLine : Type :=
| ReleasingLostJob (row : Row)
| NotifyLine (n : Notify)
| Starting (row : Row)
| ProcessNotDead (pid : Z).

(** Accesses to the dict [jobs]. *)
Inductive RegOp : Type -> Type :=
| JobsItems : RegOp (list (JobId * Job))        (* list(jobs.items()) *)
| JobsKeys : RegOp (list JobId)                 (* list(jobs) *)
| JobsPop (k : JobId) : RegOp (option Job)      (* jobs.pop(k); None: KeyError *)
| JobsContains (k : JobId) : RegOp bool         (* k in jobs *)
| JobsLen : RegOp Z                             (* len(jobs) *)
| JobsSet (k : JobId) (j : Job) : RegOp unit.   (* jobs[k] = j *)

(** Calls that leave the dispatcher. *)
Inductive ExtOp : Type -> Type :=
| DbFetchall (q : Query) : ExtOp (list Row)
| DbCommit : ExtOp unit
| Print (l : LogLine) : ExtOp unit
| Select : ExtOp bool            (* select.select([conn],[],[],1) != ([],[],[]) *)
| ConnPoll : ExtOp (list Notify) (* conn.poll(): the entries now in conn.notifies *)
| Spawn (row : Row) : ExtOp Proc (* Pipe(), Process(...), start() *)
| ProcExitcode (p : Proc) : ExtOp (option Z)
| ProcIsAlive (p : Proc) : ExtOp bool
| ProcTerminate (p : Proc) : ExtOp unit
| ProcKill (p : Proc) : ExtOp unit
| ProcClose (p : Proc) : ExtOp bool   (* false: ValueError raised *)
| ProcPid (p : Proc) : ExtOp Z
| PipeRecv (p : Proc) : ExtOp (option Msg)
    (* self._pipe.recv(); None: EOFError, the child is gone and has sent
       nothing *)
| Sleep (seconds : Z) : ExtOp unit
| UtcNow : ExtOp Z.

Inductive Op (R : Type) : Type :=
| Reg (o : RegOp R)
| Ext (x : ExtOp R).

(** ** Programs

    A program over the operations [E] returns, raises, or performs an
    operation and goes on with its answer. *)

Inductive Prog (E : Type -> Type) (A : Type) : Type :=
| Ret (a : A)
| Throw (e : exn)
| Vis (R : Type) (o : E R) (k : R -> Prog E A).

Arguments Ret {E A} a.
Arguments Throw {E A} e.
Arguments Vis {E A R} o k.

Fixpoint bind {E A B} (p : Prog E A) (f : A -> Prog E B) : Prog E B :=
  match p with
  | Ret a => f a
  | Throw e => Throw e
  | Vis o k => Vis o (fun r => bind (k r) f)
  end.

(** [try: p] / [except ...: h e], where [h e = None] when the clause
    does not match [e]. *)
Fixpoint try_except {E A} (p : Prog E A) (h : exn -> option (Prog E A))
  : Prog E A :=
  match p with
  | Ret a => Ret a
  | Throw e => match h e with Some q => q | None => Throw e end
  | Vis o k => Vis o (fun r => try_except (k r) h)
  end.

Definition perform {E R} (o : E R) : Prog E R := Vis o (fun r => Ret r).

Declare Scope prog_scope.
Delimit Scope prog_scope with prog.
Notation "x <- p ;; q" := (bind p (fun x => q))
  (at level 61, p at next level, right associativity) : prog_scope.
Notation "p ;; q" := (bind p (fun _ => q))
  (at level 61, right associativity) : prog_scope.
Local Open Scope prog_scope.

(** [for x in l: body x] *)
Fixpoint for_each {E X} (l : list X) (body : X -> Prog E unit) : Prog E unit :=
  match l with
  | [] => Ret tt
  | x :: l' => body x ;; for_each l' body
  end.

Definition assert {E} (b : bool) : Prog E unit :=
  if b then Ret tt else Throw AssertionError.

(** Programs of the dispatcher. *)
Definition Main := Prog Op.

Definition dict {R} (o : RegOp R) : Main R := perform (Reg o).
Definition call {R} (x : ExtOp R) : Main R := perform (Ext x).

(** ** [db.py] *)

Definition db_fetchall (q : Query) : Main (list Row) := call (DbFetchall q).

(** [fetchone]: [assert len(L) <= 1, L]; [L[0] if L else None]. *)
Definition db_fetchone (q : Query) : Main (option Row) :=
  L <- db_fetchall q ;;
  assert (Nat.leb (List.length L) 1) ;;
  Ret (match L with [] => None | row :: _ => Some row end).

Definition db_commit : Main unit := call DbCommit.

(** ** [class Job] *)

Definition Job_init (row : Row) : Main Job :=
  p <- call (Spawn row) ;;
  Ret (mkJob row p None).

(** [elapsed], in microseconds. *)
Definition Job_elapsed (job : Job) : Main Z :=
  now <- call UtcNow ;;
  Ret (now - r_started_at (j_row job)).

Definition Job_exitcode (job : Job) : Main (option Z) :=
  call (ProcExitcode (j_process job)).

Definition Job_ready (job : Job) : Main bool :=
  c <- call (ProcExitcode (j_process job)) ;;
  Ret (match c with Some _ => true | None => false end).

(** [self.elapsed > self._row["timeout"]], the timeout being in seconds. *)
Definition Job_timed_out (job : Job) : Main bool :=
  e <- Job_elapsed job ;;
  Ret (r_timeout (j_row job) * 1000000 <? e).

(** [self._pipe.recv()] *)
Definition pipe_recv (p : Proc) : Main Msg :=
  r <- call (PipeRecv p) ;;
  match r with
  | Some m => Ret m
  | None => Throw EOFError
  end.

(** The property [result]: the message, and the job with [_result] set. *)
Definition Job_result (job : Job) : Main (Msg * Job) :=
  ready <- Job_ready job ;;
  assert ready ;;
  match j_result job with
  | None =>
      m <- pipe_recv (j_process job) ;;
      Ret (m, mkJob (j_row job) (j_process job) (Some m))
  | Some m => Ret (m, job)
  end.

Definition Job_is_alive (job : Job) : Main bool := call (ProcIsAlive (j_process job)).
Definition Job_terminate (job : Job) : Main unit := call (ProcTerminate (j_process job)).
Definition Job_kill (job : Job) : Main unit := call (ProcKill (j_process job)).
Definition Job_pid (job : Job) : Main Z := call (ProcPid (j_process job)).

Definition Job_close (job : Job) : Main unit :=
  ok <- call (ProcClose (j_process job)) ;;
  if ok then Ret tt else Throw ValueError.

(** ** [complete_jobs] *)

Definition jobs_pop (k : JobId) : Main Job :=
  r <- dict (JobsPop k) ;;
  match r with
  | Some j => Ret j
  | None => Throw KeyError
  end.

(** The branch [if job.ready:] (lines 88-93). *)
Definition reap_ready (job_id : JobId) (job : Job) : Main unit :=
  jobs_pop job_id ;;
  rj <- Job_result job ;;
  let result := fst rj in
  let job := snd rj in
  exitcode <- (if negb (truthy (m_exc result))
               then Job_exitcode job
               else Ret (Some 1)) ;;
  let result := mkResult (m_result result) (m_exc result) exitcode in
  let func := if truthy (res_exc result) then fail_job else finish_job in
  db_fetchone (func job_id result) ;;
  db_commit.

(** The branch [elif job.timed_out:] (lines 95-111). *)
Definition reap_timed_out (job_id : JobId) (job : Job) : Main unit :=
  jobs_pop job_id ;;
  Job_terminate job ;;
  call (Sleep 3) ;;
  alive <- Job_is_alive job ;;
  (if alive then Job_kill job ;; call (Sleep 1) else Ret tt) ;;
  exitcode <- Job_exitcode job ;;
  let result := mkResult VNone (Some "timed out") exitcode in
  try_except (Job_close job)
    (fun e => match e with
              | ValueError => Some (pid <- Job_pid job ;; call (Print (ProcessNotDead pid)))
              | _ => None
              end) ;;
  db_fetchone (fail_job job_id result) ;;
  db_commit.

Definition complete_job (item : JobId * Job) : Main unit :=
  let job_id := fst item in
  let job := snd item in
  ready <- Job_ready job ;;
  if ready then reap_ready job_id job
  else
    timed_out <- Job_timed_out job ;;
    if timed_out then reap_timed_out job_id job else Ret tt.

Definition complete_jobs : Main unit :=
  items <- dict JobsItems ;;
  for_each items complete_job.

(** ** [main] *)

(** The parsed command line: [--queues] split at commas, [--processes],
    [--worker_id]. *)
Record Args := mkArgs {
  queues : list string;
  procs : Z;
  worker_id : string
}.

Definition in_queues (queue : string) (qs : list string) : bool :=
  existsb (String.eqb queue) qs.

Section Main.

Variable args : Args.

(** Lines 159-166: the sweep for lost jobs. *)
Definition release_lost (it : Z) : Main unit :=
  if it mod 10 =? 1 then
    ids <- dict JobsKeys ;;
    rows <- db_fetchall (release_lost_jobs (worker_id args) (queues args) ids) ;;
    match rows with
    | [] => Ret tt
    | _ :: _ =>
        db_commit ;;
        for_each rows (fun row => call (Print (ReleasingLostJob row)))
    end
  else Ret tt.

(** Lines 179-183: the claim of one notified job. *)
Definition claim_notified (job_id : JobId) : Main unit :=
  row <- db_fetchone (reserve_job job_id (worker_id args)) ;;
  match row with
  | Some row =>
      call (Print (Starting row)) ;;
      job <- Job_init row ;;
      dict (JobsSet job_id job) ;;
      db_commit
  | None => Ret tt
  end.

(** Lines 173-183: the body of [while conn.notifies:]. *)
Definition handle_notify (notify : Notify) : Main unit :=
  call (Print (NotifyLine notify)) ;;
  match n_payload_split notify with
  | [queue; job_id] =>
      if in_queues queue (queues args) then
        present <- dict (JobsContains job_id) ;;
        if negb present then
          size <- dict JobsLen ;;
          if size <? procs args then claim_notified job_id else Ret tt
        else Ret tt
      else Ret tt
  | _ => Throw ValueError
  end.

(** Lines 188-191: the body of the loop over the rows of a bulk claim. *)
Definition start_claimed (row : Row) : Main unit :=
  present <- dict (JobsContains (r_id row)) ;;
  assert (negb present) ;;
  call (Print (Starting row)) ;;
  job <- Job_init row ;;
  dict (JobsSet (r_id row) job).

(** Lines 185-192: the [else] branch of the select. *)
Definition poll_claim : Main unit :=
  size <- dict JobsLen ;;
  let n := procs args - size in
  if 0 <? n then
    rows <- db_fetchall (reserve_jobs_from_queues (queues args) (worker_id args) n) ;;
    for_each rows start_claimed ;;
    db_commit
  else Ret tt.

(** Lines 170-192. *)
Definition discover : Main unit :=
  readable <- call Select ;;
  if readable then
    notifies <- call ConnPoll ;;
    for_each notifies handle_notify
  else poll_claim.

(** One iteration of [while 1:], [it] already incremented. *)
Definition iteration (it : Z) : Main unit :=
  release_lost it ;;
  complete_jobs ;;
  discover.

(** [n] iterations of the loop, entered with the counter at [it]. *)
Fixpoint main_loop (n : nat) (it : Z) : Main unit :=
  match n with
  | O => Ret tt
  | S n' => iteration (it + 1) ;; main_loop n' (it + 1)
  end.

End Main.

(** ** [Job.run]: what the child process executes *)

Inductive Outcome (A : Type) : Type :=
| Returned (a : A)
| Raised (e : exn).

Arguments Returned {A} a.
Arguments Raised {A} e.

Definition Module := nat.
Definition Callable := nat.

(** Calls made by the child.  All but the formatting of the traceback
    may raise; [send] does when the message cannot be pickled. *)
Inductive ChildOp : Type -> Type :=
| ImportModule (name : string) : ChildOp (Outcome Module)
| GetAttr (m : Module) (name : string) : ChildOp (Outcome Callable)
| CallFunc (f : Callable) (args : list value) (kw : list (string * value))
    : ChildOp (Outcome value)
| FormatException (e : exn) : ChildOp string  (* "".join(traceback.format_exception(e)) *)
| PipeSend (m : Msg) : ChildOp (Outcome unit).

Definition Child := Prog ChildOp.

Definition raising {R} (o : ChildOp (Outcome R)) : Child R :=
  r <- perform o ;;
  match r with
  | Returned a => Ret a
  | Raised e => Throw e
  end.

(** [s.rsplit(".", 1)] unpacked into two names: the text before and after
    the last dot, [None] when [s] has no dot. *)
Fixpoint rsplit_dot (s : string) : option (string * string) :=
  match s with
  | EmptyString => None
  | String c s' =>
      match rsplit_dot s' with
      | Some (m, f) => Some (String c m, f)
      | None => if Ascii.eqb c "."%char then Some (EmptyString, s') else None
      end
  end.

Definition get_default {X} (o : option X) (d : X) : X :=
  match o with
  | Some x => x
  | None => d
  end.

(** Lines 31-37: the body of [try:]. *)
Definition run_job (payload : Payload) : Child Msg :=
  func <- match p_func payload with
          | Some s => Ret s
          | None => Throw KeyError
          end ;;
  mf <- match rsplit_dot func with
        | Some mf => Ret mf
        | None => Throw ValueError
        end ;;
  mod_ <- raising (ImportModule (fst mf)) ;;
  func <- raising (GetAttr mod_ (snd mf)) ;;
  let args := get_default (p_args payload) [] in
  let kw := get_default (p_kwargs payload) [] in
  res <- raising (CallFunc func args kw) ;;
  Ret (mkMsg res None).

(** Lines 28-42. *)
Definition Job_run (row : Row) : Child unit :=
  let payload := r_payload row in
  res <- try_except (run_job payload)
           (fun e =>
              if isinstance_Exception e
              then Some (exc <- perform (FormatException e) ;;
                         Ret (mkMsg VNone (Some exc)))
              else None) ;;
  raising (PipeSend res).

(** ** Running a program *)

(** An operation performed, with its answer. *)
Inductive Entry (E : Type -> Type) : Type :=
| Ev (R : Type) (o : E R) (r : R).

Arguments Ev {E R} o r.

Record Run (E : Type -> Type) (S A : Type) := mkRun {
  trace : list (Entry E);
  outcome : Outcome A;
  final : S
}.

Arguments mkRun {E S A} trace outcome final.

Section Interp.

Variable E : Type -> Type.
Variable S : Type.
(** The answer to an operation in a state, and the state it leaves. *)
Variable ans : forall R, E R -> S -> R.
Variable nxt : forall R, E R -> S -> S.

Fixpoint interp {A} (p : Prog E A) (s : S) : Run E S A :=
  match p with
  | Ret a => mkRun [] (Returned a) s
  | Throw e => mkRun [] (Raised e) s
  | Vis o k =>
      let r := ans o s in
      let rest := interp (k r) (nxt o s) in
      mkRun (Ev o r :: trace rest) (outcome rest) (final rest)
  end.

(** [p] then [f]: the run of [p], continued by the run of [f] on what
    [p] returned, or cut short where [p] raised. *)
Definition then_run {A B} (r1 : Run E S A) (f : A -> Prog E B) : Run E S B :=
  match outcome r1 with
  | Returned a =>
      let r2 := interp (f a) (final r1) in
      mkRun (trace r1 ++ trace r2) (outcome r2) (final r2)
  | Raised e => mkRun (trace r1) (Raised e) (final r1)
  end.

End Interp.

(** What surrounds the dispatcher: a state, and for every call its answer
    in that state and the state it leaves.  Two calls may fail:
    [Process.close], whose ValueError the worker catches, and [recv],
    which raises EOFError when the child is gone and has sent nothing.
    The others return: what follows a failure of the store or of the
    operating system is not followed here. *)
Record Env := mkEnv {
  World : Type;
  answer : forall R, ExtOp R -> World -> R;
  advance : forall R, ExtOp R -> World -> World
}.

Arguments answer e {R} x w.
Arguments advance e {R} x w.

Definition dict_answer {R} (o : RegOp R) (jobs : Registry) : R :=
  match o in RegOp R return R with
  | JobsItems => jobs
  | JobsKeys => keys jobs
  | JobsPop k => lookup k jobs
  | JobsContains k => contains k jobs
  | JobsLen => len jobs
  | JobsSet _ _ => tt
  end.

Definition dict_update {R} (o : RegOp R) (jobs : Registry) : Registry :=
  match o with
  | JobsPop k => remove k jobs
  | JobsSet k j => setitem k j jobs
  | _ => jobs
  end.

Section Run.

Variable env : Env.

(** The dispatcher's state: the dict [jobs] and the world. *)
Definition State : Type := Registry * World env.

Definition op_answer {R} (o : Op R) (s : State) : R :=
  match o with
  | Reg o => dict_answer o (fst s)
  | Ext x => answer env x (snd s)
  end.

Definition op_next {R} (o : Op R) (s : State) : State :=
  match o with
  | Reg o => (dict_update o (fst s), snd s)
  | Ext x => (fst s, advance env x (snd s))
  end.

Definition run {A} (p : Main A) (jobs : Registry) (w : World env)
  : Run Op State A :=
  interp (@op_answer) (@op_next) p (jobs, w).

Definition jobs_after {A} (r : Run Op State A) : Registry := fst (final r).
Definition world_after {A} (r : Run Op State A) : World env := snd (final r).

End Run.

(** The child's surroundings. *)
Record ChildEnv := mkChildEnv {
  CWorld : Type;
  c_answer : forall R, ChildOp R -> CWorld -> R;
  c_advance : forall R, ChildOp R -> CWorld -> CWorld
}.

Definition run_child (cenv : ChildEnv) {A} (p : Child A) (w : CWorld cenv)
  : Run ChildOp (CWorld cenv) A :=
  interp (c_answer cenv) (c_advance cenv) p w.

(** ** Reading traces *)

Definition DTrace := list (Entry Op).

Definition count (f : Entry Op -> bool) (tr : DTrace) : nat :=
  List.length (filter f tr).

(** [jobs.pop(k)] *)
Definition is_pop (k : JobId) (e : Entry Op) : bool :=
  match e with
  | Ev (Reg (JobsPop k')) _ => String.eqb k k'
  | _ => false
  end.

(** [jobs[k] = ...] *)
Definition is_set (k : JobId) (e : Entry Op) : bool :=
  match e with
  | Ev (Reg (JobsSet k' _)) _ => String.eqb k k'
  | _ => false
  end.

Definition query_of (e : Entry Op) : option Query :=
  match e with
  | Ev (Ext (DbFetchall q)) _ => Some q
  | _ => None
  end.

Definition is_finish (k : JobId) (e : Entry Op) : bool :=
  match query_of e with
  | Some (finish_job k' _) => String.eqb k k'
  | _ => false
  end.

Definition is_fail (k : JobId) (e : Entry Op) : bool :=
  match query_of e with
  | Some (fail_job k' _) => String.eqb k k'
  | _ => false
  end.

(** A report of job [k] to the store. *)
Definition is_report (k : JobId) (e : Entry Op) : bool :=
  is_finish k e || is_fail k e.

Definition is_targeted_claim (e : Entry Op) : bool :=
  match query_of e with
  | Some (reserve_job _ _) => true
  | _ => false
  end.

Definition is_bulk_claim (e : Entry Op) : bool :=
  match query_of e with
  | Some (reserve_jobs_from_queues _ _ _) => true
  | _ => false
  end.

Definition is_sweep (e : Entry Op) : bool :=
  match query_of e with
  | Some (release_lost_jobs _ _ _) => true
  | _ => false
  end.

Definition is_commit (e : Entry Op) : bool :=
  match e with
  | Ev (Ext DbCommit) _ => true
  | _ => false
  end.

Definition is_kill (p : Proc) (e : Entry Op) : bool :=
  match e with
  | Ev (Ext (ProcKill p')) _ => Nat.eqb p p'
  | _ => false
  end.

(** The dict after the operations of a trace. *)
Definition entry_update (e : Entry Op) (jobs : Registry) : Registry :=
  match e with
  | Ev (Reg o) _ => dict_update o jobs
  | _ => jobs
  end.

Fixpoint replay (tr : DTrace) (jobs : Registry) : Registry :=
  match tr with
  | [] => jobs
  | e :: tr' => replay tr' (entry_update e jobs)
  end.

(** A claim is admitted when it asks for no more than the free capacity
    of the dict at that moment. *)
Definition admitted (limit : Z) (jobs : Registry) (e : Entry Op) : bool :=
  match query_of e with
  | Some (reserve_job _ _) => len jobs <? limit
  | Some (reserve_jobs_from_queues _ _ n) => (0 <? n) && (n <=? limit - len jobs)
  | _ => true
  end.

(** Along the whole trace, started from [jobs]: every claim is admitted
    and the dict never holds more than [limit] entries. *)
Fixpoint within_capacity (limit : Z) (tr : DTrace) (jobs : Registry) : bool :=
  match tr with
  | [] => true
  | e :: tr' =>
      admitted limit jobs e
      && (len (entry_update e jobs) <=? limit)
      && within_capacity limit tr' (entry_update e jobs)
  end.

(** The phases of an iteration. *)
Inductive Phase : Type := Sweep | Reap | Discover.

(** The phase an operation belongs to; a commit, made in all three, to
    none. *)
Definition phase_of (e : Entry Op) : option Phase :=
  match e with
  | Ev (Reg o) _ =>
      match o with
      | JobsKeys => Some Sweep
      | JobsItems | JobsPop _ => Some Reap
      | JobsContains _ | JobsLen | JobsSet _ _ => Some Discover
      end
  | Ev (Ext x) _ =>
      match x with
      | DbFetchall (release_lost_jobs _ _ _) => Some Sweep
      | DbFetchall (finish_job _ _) | DbFetchall (fail_job _ _) => Some Reap
      | DbFetchall (reserve_job _ _)
      | DbFetchall (reserve_jobs_from_queues _ _ _) => Some Discover
      | DbCommit => None
      | Print (ReleasingLostJob _) => Some Sweep
      | Print (ProcessNotDead _) => Some Reap
      | Print (NotifyLine _) | Print (Starting _) => Some Discover
      | Select | ConnPoll | Spawn _ => Some Discover
      | ProcExitcode _ | ProcIsAlive _ | ProcTerminate _ | ProcKill _
      | ProcClose _ | ProcPid _ | PipeRecv _ | Sleep _ | UtcNow => Some Reap
      end
  end.

Fixpoint phases (tr : DTrace) : list Phase :=
  match tr with
  | [] => []
  | e :: tr' =>
      match phase_of e with
      | Some ph => ph :: phases tr'
      | None => phases tr'
      end
  end.

(** [in_order rank l]: the ranks along [l] never decrease. *)
Fixpoint in_order (rank : Phase -> nat) (l : list Phase) : bool :=
  match l with
  | [] => true
  | a :: l' =>
      forallb (fun b => Nat.leb (rank a) (rank b)) l' && in_order rank l'
  end.

(** The order of the source: sweep, reap, discover. *)
Definition source_rank (ph : Phase) : nat :=
  match ph with Sweep => 0 | Reap => 1 | Discover => 2 end%nat.

(** The order reap, sweep, discover. *)
Definition reap_first_rank (ph : Phase) : nat :=
  match ph with Reap => 0 | Sweep => 1 | Discover => 2 end%nat.

(** Every operation a program can perform satisfies [P]. *)
Inductive ops_sat (E : Type -> Type) (P : forall R, E R -> Prop) (A : Type)
  : Prog E A -> Prop :=
| ops_Ret a : ops_sat P (Ret a)
| ops_Throw e : ops_sat P (Throw e)
| ops_Vis R (o : E R) k :
    P R o -> (forall r, ops_sat P (k r)) -> ops_sat P (Vis o k).

(** ** What the worker expects of its surroundings *)

(** A process that has exited keeps its exit code. *)
Definition exit_codes_stick (env : Env) : Prop :=
  forall (p : Proc) (c : Z) (R : Type) (x : ExtOp R) (w : World env),
    answer env (ProcExitcode p) w = Some c ->
    answer env (ProcExitcode p) (advance env x w) = Some c.

(** The stored functions called through [fetchone]. *)
Definition single_row (q : Query) : bool :=
  match q with
  | reserve_job _ _ | finish_job _ _ | fail_job _ _ => true
  | _ => false
  end.

(** They return at most one row. *)
Definition store_single_rows (env : Env) : Prop :=
  forall (q : Query) (w : World env),
    single_row q = true ->
    (List.length (answer env (DbFetchall q) w) <= 1)%nat.

(** Every child whose message is read has sent one: [recv] returns. *)
Definition messages_arrive (env : Env) : Prop :=
  forall p w, answer env (PipeRecv p) w <> None.

(** What [complete_jobs] finds of a job it examines in the world [w]:
    an exit code ([job.ready]); more than the timeout elapsed
    ([job.timed_out], read after the exit code); and, for a job found
    ready whose message is not yet read, a pipe with nothing to read. *)
Definition found_ready (env : Env) (job : Job) (w : World env) : bool :=
  match answer env (ProcExitcode (j_process job)) w with
  | Some _ => true
  | None => false
  end.

Definition found_late (env : Env) (job : Job) (w : World env) : bool :=
  r_timeout (j_row job) * 1000000
  <? answer env UtcNow (advance env (ProcExitcode (j_process job)) w)
     - r_started_at (j_row job).

Definition found_silent (env : Env) (job : Job) (w : World env) : bool :=
  found_ready env job w
  && match j_result job with
     | Some _ => false
     | None =>
         match answer env (PipeRecv (j_process job))
                 (advance env (ProcExitcode (j_process job))
                    (advance env (ProcExitcode (j_process job)) w)) with
         | Some _ => false
         | None => true
         end
     end.

(** A bulk claim for up to [n] jobs returns at most [n] rows. *)
Definition store_bulk_bounded (env : Env) : Prop :=
  forall qs wid n (w : World env),
    0 < n ->
    Z.of_nat (List.length
                (answer env (DbFetchall (reserve_jobs_from_queues qs wid n)) w))
    <= n.

(** ** The traces the reaping is expected to leave *)

(** The report of a finished job: [finish_job] with the child's exit code
    when the message carries no error, [fail_job] with exit code 1 when it
    does. *)
Definition ready_report (k : JobId) (msg : Msg) (c : option Z) : Query :=
  if truthy (m_exc msg)
  then fail_job k (mkResult (m_result msg) (m_exc msg) (Some 1))
  else finish_job k (mkResult (m_result msg) (m_exc msg) c).

(** Terminate, wait 3, look; kill and wait 1 if still alive. *)
Definition escalation (p : Proc) (alive : bool) : DTrace :=
  [Ev (Ext (ProcTerminate p)) tt; Ev (Ext (Sleep 3)) tt;
   Ev (Ext (ProcIsAlive p)) alive]
  ++ (if alive
      then [Ev (Ext (ProcKill p)) tt; Ev (Ext (Sleep 1)) tt]
      else []).

(** Close the process; a ValueError is printed, with the pid. *)
Definition release (p : Proc) (closed : bool) (pid : Z) : DTrace :=
  Ev (Ext (ProcClose p)) closed
  :: (if closed
      then []
      else [Ev (Ext (ProcPid p)) pid; Ev (Ext (Print (ProcessNotDead pid))) tt]).

Definition timed_out_result (exitcode : option Z) : Result :=
  mkResult VNone (Some "timed out") exitcode.

(** A run with the operations [t] performed before it. *)
Definition prepend {S A} (t : DTrace) (r : Run Op S A) : Run Op S A :=
  mkRun (t ++ trace r) (outcome r) (final r).

(** The rows of a bulk claim are fresh when no id is among the known
    ones or repeats an earlier row. *)
Fixpoint fresh_rows (known : list JobId) (rows : list Row) : bool :=
  match rows with
  | [] => true
  | row :: rest =>
      negb (existsb (String.eqb (r_id row)) known)
      && fresh_rows (known ++ [r_id row]) rest
  end.

(** An operation whose entries [f] never selects. *)
Definition op_never (f : Entry Op -> bool) (R : Type) (o : Op R) : Prop :=
  forall r : R, f (Ev o r) = false.

(** An operation that belongs to phase [ph], or to none. *)
Definition op_in_phase (ph : Phase) (R : Type) (o : Op R) : Prop :=
  forall r : R, phase_of (Ev o r) = Some ph \/ phase_of (Ev o r) = None.

(** An operation that asks the store for no job and does not add to
    the dict. *)
Definition harmless (limit : Z) (R : Type) (o : Op R) : Prop :=
  forall (jobs : Registry) (r : R),
    admitted limit jobs (Ev o r) = true
    /\ len (entry_update (Ev o r) jobs) <= len jobs.

(** The dict holds no more than [limit] jobs. *)
Definition fits (limit : Z) (jobs : Registry) : Prop := len jobs <= limit.

(** From a dict that satisfies [Pre], the run of [p] keeps within the
    capacity. *)
Definition keeps_within (env : Env) (limit : Z) (Pre : Registry -> Prop)
           (A : Type) (p : Main A) : Prop :=
  forall jobs w,
    Pre jobs ->
    within_capacity limit (trace (run env p jobs w)) jobs = true.

(** The number of sweeps due in [n] iterations entered with the counter
    at [it]. *)
Fixpoint sweeps_due (n : nat) (it : Z) : nat :=
  match n with
  | O => O
  | S n' =>
      Nat.add (if (it + 1) mod 10 =? 1 then 1%nat else 0%nat)
              (sweeps_due n' (it + 1))
  end.

(** ** What the child is expected to send *)

(** The messages handed to [result.send] along a trace of the child. *)
Fixpoint sends_of (tr : list (Entry ChildOp)) : list Msg :=
  match tr with
  | [] => []
  | Ev (PipeSend m) _ :: tr' => m :: sends_of tr'
  | _ :: tr' => sends_of tr'
  end.

(** The message an operation has put on the pipe: that of a [send] that
    returned. *)
Definition sent_by (e : Entry ChildOp) : option Msg :=
  match e with
  | Ev o r =>
      match o in ChildOp R return R -> option Msg with
      | PipeSend m => fun r => match r with
                               | Returned _ => Some m
                               | Raised _ => None
                               end
      | _ => fun _ => None
      end r
  end.

(** The messages sent along a trace of the child. *)
Fixpoint sent (tr : list (Entry ChildOp)) : list Msg :=
  match tr with
  | [] => []
  | e :: tr' =>
      match sent_by e with
      | Some m => m :: sent tr'
      | None => sent tr'
      end
  end.

(** The formatting of the traceback and the send: what [run] does once
    the [try] is over. *)
Definition is_reporting (e : Entry ChildOp) : bool :=
  match e with
  | Ev (FormatException _) _ | Ev (PipeSend _) _ => true
  | _ => false
  end.

(** What running the job of a payload comes to: the function reference
    resolved (the key "func", the split at the last dot, the import, the
    attribute) and the function called; the value it returns, or the
    first exception raised on the way. *)
Definition attempt (cenv : ChildEnv) (payload : Payload) (w : CWorld cenv)
  : Outcome value :=
  match p_func payload with
  | None => Raised KeyError
  | Some s =>
      match rsplit_dot s with
      | None => Raised ValueError
      | Some (m, f) =>
          match c_answer cenv (ImportModule m) w with
          | Raised e => Raised e
          | Returned mod_ =>
              let w1 := c_advance cenv (ImportModule m) w in
              match c_answer cenv (GetAttr mod_ f) w1 with
              | Raised e => Raised e
              | Returned func =>
                  c_answer cenv
                    (CallFunc func (get_default (p_args payload) [])
                              (get_default (p_kwargs payload) []))
                    (c_advance cenv (GetAttr mod_ f) w1)
              end
          end
      end
  end.

(** The operations the body of the [try] is expected to perform: the
    import of the module part of "func", the lookup of the function part
    in the module imported, the call of the function found with the
    payload's arguments; each only when the one before returned. *)
Definition resolution (cenv : ChildEnv) (payload : Payload) (w : CWorld cenv)
  : list (Entry ChildOp) :=
  match p_func payload with
  | None => []
  | Some s =>
      match rsplit_dot s with
      | None => []
      | Some (m, f) =>
          let imported := c_answer cenv (ImportModule m) w in
          Ev (ImportModule m) imported
          :: match imported with
             | Raised _ => []
             | Returned mod_ =>
                 let w1 := c_advance cenv (ImportModule m) w in
                 let found := c_answer cenv (GetAttr mod_ f) w1 in
                 Ev (GetAttr mod_ f) found
                 :: match found with
                    | Raised _ => []
                    | Returned func =>
                        let call :=
                          CallFunc func (get_default (p_args payload) [])
                                   (get_default (p_kwargs payload) []) in
                        [Ev call
                            (c_answer cenv call
                               (c_advance cenv (GetAttr mod_ f) w1))]
                    end
             end
      end
  end.

(** ** Environments to run the worker in *)

(** An environment whose state counts the calls made so far. *)
Definition scripted (a : forall R, ExtOp R -> nat -> R) : Env :=
  mkEnv a (fun _ _ w => Datatypes.S w).

Definition test_payload : Payload :=
  mkPayload (Some "test.test") (Some []) (Some []).

(** The job [test.py] inserts, once claimed: timeout 5. *)
Definition test_row (id : JobId) : Row := mkRow id test_payload 0 5.

Definition test_args : Args := mkArgs ["default"] 4 "worker-1".

(** The answers of a scripted environment, by the number of calls made
    before. *)
Record Script := mkScript {
  sc_rows : Query -> nat -> list Row;
  sc_select : nat -> bool;
  sc_notifies : nat -> list Notify;
  sc_spawn : Row -> nat -> Proc;
  sc_exitcode : Proc -> nat -> option Z;
  sc_alive : Proc -> nat -> bool;
  sc_close : Proc -> nat -> bool;
  sc_pid : Proc -> Z;
  sc_msg : Proc -> option Msg;
  sc_now : nat -> Z
}.

Definition script_answer (sc : Script) (R : Type) (x : ExtOp R) (w : nat) : R :=
  match x in ExtOp R return R with
  | DbFetchall q => sc_rows sc q w
  | DbCommit => tt
  | Print _ => tt
  | Select => sc_select sc w
  | ConnPoll => sc_notifies sc w
  | Spawn row => sc_spawn sc row w
  | ProcExitcode p => sc_exitcode sc p w
  | ProcIsAlive p => sc_alive sc p w
  | ProcTerminate _ => tt
  | ProcKill _ => tt
  | ProcClose p => sc_close sc p w
  | ProcPid p => sc_pid sc p
  | PipeRecv p => sc_msg sc p
  | Sleep _ => tt
  | UtcNow => sc_now sc w
  end.

Definition script_env (sc : Script) : Env := scripted (script_answer sc).

Definition passed : Msg := mkMsg (VStr "Passed") None.

(** Every child has returned "Passed" and exited with code 0; the store
    has no job to hand out; no notification arrives. *)
Definition settled : Script :=
  mkScript (fun _ _ => []) (fun _ => false) (fun _ => [])
           (fun _ w => w) (fun _ _ => Some 0) (fun _ _ => false)
           (fun _ _ => true) (fun p => Z.of_nat p) (fun _ => Some passed)
           (fun _ => 1000000).

(** The job "a", run by process 7, and a dict holding it. *)
Definition job_a : Job := mkJob (test_row "a") 7%nat None.

Definition one_job : Registry := [("a", job_a)].

(** The child hangs: it has no exit code and survives the terminate;
    the kill, the sixth call, ends it with exit code -9.  The clock reads
    6 seconds. *)
Definition hung : Script :=
  mkScript (fun _ _ => []) (fun _ => false) (fun _ => [])
           (fun _ w => w)
           (fun _ w => if Nat.ltb w 6 then None else Some (-9))
           (fun _ _ => true)
           (fun _ _ => true) (fun p => Z.of_nat p) (fun _ => Some passed)
           (fun _ => 6000000).

(** A notification for job "b" on the queue "default". *)
Definition notify_b : Notify := mkNotify 4242 "job" ["default"; "b"].

(** Five jobs are pending, "b" to "f"; a bulk claim for [n] jobs gets the
    first [n] of them.  The children started run on: none has an exit
    code, and one second has elapsed. *)
Definition pending_rows : list Row :=
  map test_row ["b"; "c"; "d"; "e"; "f"].

Definition pending : Script :=
  mkScript (fun q _ =>
              match q with
              | reserve_jobs_from_queues _ _ n => firstn (Z.to_nat n) pending_rows
              | _ => []
              end)
           (fun _ => false) (fun _ => [])
           (fun _ w => w) (fun _ _ => None) (fun _ _ => true)
           (fun _ _ => true) (fun p => Z.of_nat p) (fun _ => Some passed)
           (fun _ => 1000000).

(** A store in breach of its contract: it hands out the job "a" to every
    bulk claim. *)
Definition repeating : Script :=
  mkScript (fun q _ =>
              match q with
              | reserve_jobs_from_queues _ _ _ => [test_row "a"]
              | _ => []
              end)
           (fun _ => false) (fun _ => [])
           (fun _ w => w) (fun _ _ => None) (fun _ _ => true)
           (fun _ _ => true) (fun p => Z.of_nat p) (fun _ => Some passed)
           (fun _ => 1000000).

(** A child whose imports and attributes resolve and whose function
    behaves as [behaviour] says. *)
Definition child_env (behaviour : Outcome value) : ChildEnv :=
  mkChildEnv
    (fun R (o : ChildOp R) (_ : unit) =>
       match o in ChildOp R return R with
       | ImportModule _ => Returned 1%nat
       | GetAttr _ _ => Returned 2%nat
       | CallFunc _ _ _ => behaviour
       | FormatException _ => "Traceback (most recent call last): ..."
       | PipeSend _ => Returned tt
       end)
    (fun _ _ w => w).

(** A child whose function returns an object that cannot be pickled:
    [send] raises. *)
Definition unpicklable : ChildEnv :=
  mkChildEnv
    (fun R (o : ChildOp R) (_ : unit) =>
       match o in ChildOp R return R with
       | ImportModule _ => Returned 1%nat
       | GetAttr _ _ => Returned 2%nat
       | CallFunc _ _ _ => Returned (VObject "<function <lambda>>")
       | FormatException _ => "Traceback (most recent call last): ..."
       | PipeSend _ => Raised (UserException "PicklingError")
       end)
    (fun _ _ w => w).

(** ** More readings of traces *)

(** [Job(row)]: a child started. *)
Definition is_spawn (e : Entry Op) : bool :=
  match e with
  | Ev (Ext (Spawn _)) _ => true
  | _ => false
  end.

(** [jobs[...] = ...], whatever the key. *)
Definition is_store (e : Entry Op) : bool :=
  match e with
  | Ev (Reg (JobsSet _ _)) _ => true
  | _ => false
  end.

(** [self._pipe.recv()] *)
Definition is_recv (e : Entry Op) : bool :=
  match e with
  | Ev (Ext (PipeRecv _)) _ => true
  | _ => false
  end.

(** The operations of the branch of a timed-out job: the clock, the
    terminate, the sleeps, the look, the kill, the close. *)
Definition is_escalation (e : Entry Op) : bool :=
  match e with
  | Ev (Ext UtcNow) _ | Ev (Ext (ProcTerminate _)) _ | Ev (Ext (Sleep _)) _
  | Ev (Ext (ProcIsAlive _)) _ | Ev (Ext (ProcKill _)) _
  | Ev (Ext (ProcClose _)) _ => true
  | _ => false
  end.

(** Every run of [p] starts as many children as it stores jobs. *)
Definition tracks_children (env : Env) (A : Type) (p : Main A) : Prop :=
  forall jobs w,
    count is_spawn (trace (run env p jobs w))
    = count is_store (trace (run env p jobs w)).

(** The property [result] read twice, the second time on the job as the
    first read left it. *)
Definition result_twice (job : Job) : Main (Msg * Job) :=
  rj <- Job_result job ;;
  Job_result (snd rj).

(** ** [main], line 141: [args.queues.split(',')] *)

Definition is_comma (c : ascii) : bool := Ascii.eqb c ","%char.

Fixpoint split_comma (s : string) : list string :=
  match s with
  | EmptyString => [EmptyString]
  | String c s' =>
      if is_comma c then EmptyString :: split_comma s'
      else match split_comma s' with
           | [] => [String c EmptyString]
           | piece :: pieces => String c piece :: pieces
           end
  end.

(** [c in s] *)
Fixpoint has_char (c : ascii) (s : string) : bool :=
  match s with
  | EmptyString => false
  | String c' s' => Ascii.eqb c c' || has_char c s'
  end.

Fixpoint count_char (c : ascii) (s : string) : nat :=
  match s with
  | EmptyString => O
  | String c' s' => Nat.add (if Ascii.eqb c c' then 1%nat else 0%nat) (count_char c s')
  end.

(** Lines 141-143: the command line, parsed, as the loop uses it. *)
Definition parse_args (queues_arg : string) (processes : Z) (worker : string)
  : Args :=
  mkArgs (split_comma queues_arg) processes worker.

(** Lines 118-138: the defaults, [hostname] being [socket.gethostname()]. *)
Definition default_args (hostname : string) : Args :=
  parse_args "default" 4 hostname.

(** ** More readings of the child's traces *)

(** The modules imported, the attributes fetched and the calls made
    (positional and keyword arguments) along a trace of the child. *)
Fixpoint imports_of (tr : list (Entry ChildOp)) : list string :=
  match tr with
  | [] => []
  | Ev (ImportModule name) _ :: tr' => name :: imports_of tr'
  | _ :: tr' => imports_of tr'
  end.

Fixpoint getattrs_of (tr : list (Entry ChildOp)) : list string :=
  match tr with
  | [] => []
  | Ev (GetAttr _ name) _ :: tr' => name :: getattrs_of tr'
  | _ :: tr' => getattrs_of tr'
  end.

Fixpoint calls_of (tr : list (Entry ChildOp))
  : list (list value * list (string * value)) :=
  match tr with
  | [] => []
  | Ev (CallFunc _ args kw) _ :: tr' => (args, kw) :: calls_of tr'
  | _ :: tr' => calls_of tr'
  end.

(** The clock reads 5 seconds: the timeout of the test job, to the
    microsecond.  No child has an exit code. *)
Definition on_the_dot : Script :=
  mkScript (fun _ _ => []) (fun _ => false) (fun _ => [])
           (fun _ w => w) (fun _ _ => None) (fun _ _ => true)
           (fun _ _ => true) (fun p => Z.of_nat p) (fun _ => Some passed)
           (fun _ => 5000000).

(** Every child has exited with code 0, and the clock reads 6 seconds,
    past the timeout of the test job. *)
Definition late : Script :=
  mkScript (fun _ _ => []) (fun _ => false) (fun _ => [])
           (fun _ w => w) (fun _ _ => Some 0) (fun _ _ => false)
           (fun _ _ => true) (fun p => Z.of_nat p) (fun _ => Some passed)
           (fun _ => 6000000).

(** The child of process 7 has exited with code 0; the others are still
    running, one second after their start. *)
Definition mixed : Script :=
  mkScript (fun _ _ => []) (fun _ => false) (fun _ => [])
           (fun _ w => w)
           (fun p _ => if Nat.eqb p 7 then Some 0 else None)
           (fun _ _ => true)
           (fun _ _ => true) (fun p => Z.of_nat p) (fun _ => Some passed)
           (fun _ => 1000000).

(** Every child has exited with code 1 and has sent nothing (its
    function called [sys.exit(1)]): the pipes have nothing to read. *)
Definition silent : Script :=
  mkScript (fun _ _ => []) (fun _ => false) (fun _ => [])
           (fun _ w => w) (fun _ _ => Some 1) (fun _ _ => false)
           (fun _ _ => true) (fun p => Z.of_nat p) (fun _ => None)
           (fun _ => 1000000).

(** The job "b", run by process 8, and a dict holding "a" and "b". *)
Definition job_b : Job := mkJob (test_row "b") 8%nat None.

Definition two_jobs : Registry := [("a", job_a); ("b", job_b)].

(** A notification whose payload is a single token. *)
Definition notify_short : Notify := mkNotify 4242 "job" ["default"].

(** ** [db.py], the module itself

    The worker above sees [db.fetchall] and [db.commit] as calls.  Here
    is what they do: the connection of the thread, kept in the
    thread-local [ctx.pgconns] under a key computed from the connection
    options, opened on first use, and the cursor of every query. *)

Module Db.

(** A [psycopg2] connection and a cursor, by handle. *)
Definition Conn := nat.
Definition Cursor := nat.

(** The value of a connection option. *)
Inductive OptValue : Type :=
| OStr (s : string)
| OInt (z : Z)
| OFactory (name : string).

Definition RealDictCursor : OptValue := OFactory "RealDictCursor".

(** A dict with string keys ([opts], [connect_opts], [conf]): insertion
    order, no duplicate key. *)
Definition Opts := list (string * OptValue).

Fixpoint opt_get (k : string) (d : Opts) : option OptValue :=
  match d with
  | [] => None
  | (k', v) :: d' => if String.eqb k k' then Some v else opt_get k d'
  end.

(** [d[k] = v] *)
Fixpoint opt_set (k : string) (v : OptValue) (d : Opts) : Opts :=
  match d with
  | [] => [(k, v)]
  | (k', v') :: d' =>
      if String.eqb k k' then (k, v) :: d' else (k', v') :: opt_set k v d'
  end.

(** [conf.update( **opts)] *)
Definition update (conf opts : Opts) : Opts :=
  fold_left (fun d kv => opt_set (fst kv) (snd kv) d) opts conf.

(** [sorted(connect_opts)]: the keys, in the order of Python's strings. *)
Fixpoint insert_sorted (k : string) (l : list string) : list string :=
  match l with
  | [] => [k]
  | k' :: l' => if String.leb k k' then k :: l else k' :: insert_sorted k l'
  end.

Definition sorted (d : Opts) : list string :=
  fold_right insert_sorted [] (map fst d).

(** [ctx.pgconns]: connections by key. *)
Definition Pgconns := list (Z * Conn).

Fixpoint conns_get (key : Z) (d : Pgconns) : option Conn :=
  match d with
  | [] => None
  | (key', c) :: d' => if Z.eqb key key' then Some c else conns_get key d'
  end.

Fixpoint conns_set (key : Z) (c : Conn) (d : Pgconns) : Pgconns :=
  match d with
  | [] => [(key, c)]
  | (key', c') :: d' =>
      if Z.eqb key key' then (key, c) :: d' else (key', c') :: conns_set key c d'
  end.

(** The thread-local [ctx]: [None] until the attribute [pgconns] is set. *)
Definition Ctx := option Pgconns.

(** A statement with its parameters: a call of one of the stored
    functions, or the insert of [test.py]. *)
Inductive Statement : Type :=
| Stored (q : Query)
| InsertJob (queue : string) (payload : Payload) (tries timeout : Z).

Inductive LogRecord : Type :=
| COMMIT (c : Conn)
| ROLLBACK (c : Conn).

(** Accesses to [ctx]. *)
Inductive CtxOp : Type -> Type :=
| HasPgconns : CtxOp bool                         (* hasattr(ctx, "pgconns") *)
| NewPgconns : CtxOp unit                         (* ctx.pgconns = {} *)
| PgconnsGet (key : Z) : CtxOp (option Conn)      (* ctx.pgconns.get(key) *)
| PgconnsSet (key : Z) (c : Conn) : CtxOp unit.   (* ctx.pgconns[key] = c *)

(** Calls that leave the module.  Opening a connection, executing a
    statement and iterating over the cursor may raise. *)
Inductive SysOp : Type -> Type :=
| Environ (name : string) : SysOp (option string)  (* os.environ[name]; None: KeyError *)
| IntOf (s : string) : SysOp (option Z)            (* int(s); None: ValueError *)
| PgConnect (conf : Opts) : SysOp (Outcome Conn)   (* psycopg2.connect( **conf) *)
| ConnClosed (c : Conn) : SysOp bool               (* conn.closed, as a truth value *)
| ConnCursor (c : Conn) (name : option string) : SysOp Cursor
| CursorExecute (cur : Cursor) (q : Statement) : SysOp (Outcome unit)
| CursorRows (cur : Cursor) : SysOp (list Row * option exn)
    (* for row in cursor: the rows it yields, and the exception that ends
       the iteration, if one does *)
| CursorClose (cur : Cursor) : SysOp unit          (* the end of the with block *)
| LogDebug (r : LogRecord) : SysOp unit
| ConnCommit (c : Conn) : SysOp unit
| ConnRollback (c : Conn) : SysOp unit.

Inductive DbOp (R : Type) : Type :=
| OnCtx (o : CtxOp R)
| OnSys (x : SysOp R).

Definition DbProg := Prog DbOp.

Definition ctx {R} (o : CtxOp R) : DbProg R := perform (OnCtx o).
Definition sys {R} (x : SysOp R) : DbProg R := perform (OnSys x).

Definition sys_raising {R} (x : SysOp (Outcome R)) : DbProg R :=
  r <- sys x ;;
  match r with
  | Returned a => Ret a
  | Raised e => Throw e
  end.

(** [with ...: p], [q] being what leaving the block does: it is done
    however [p] ends, and an exception of [p] goes on. *)
Fixpoint finally {E A} (p : Prog E A) (q : Prog E unit) : Prog E A :=
  match p with
  | Ret a => q ;; Ret a
  | Throw e => q ;; Throw e
  | Vis o k => Vis o (fun r => finally (k r) q)
  end.

(** The errors of [psycopg2] are exceptions of imported code; each is
    named by the class of the DB API it is an instance of
    (ProgrammingError also for the subclasses of it). *)
Definition ProgrammingError : exn := UserException "ProgrammingError".

Definition isinstance_ProgrammingError (e : exn) : bool :=
  match e with
  | UserException name => String.eqb name "ProgrammingError"
  | _ => false
  end.

(** [os.environ[name]] *)
Definition environ (name : string) : DbProg string :=
  r <- sys (Environ name) ;;
  match r with
  | Some s => Ret s
  | None => Throw KeyError
  end.

(** [int(s)] *)
Definition int (s : string) : DbProg Z :=
  r <- sys (IntOf s) ;;
  match r with
  | Some z => Ret z
  | None => Throw ValueError
  end.

(** Lines 21-30. *)
Definition connect (opts : Opts) : DbProg Conn :=
  host <- environ "PGHOST" ;;
  port <- (s <- environ "PGPORT" ;; int s) ;;
  database <- environ "PGDATABASE" ;;
  user <- environ "PGUSER" ;;
  password <- environ "PGPASSWORD" ;;
  let conf := [("host", OStr host); ("port", OInt port);
               ("database", OStr database); ("user", OStr user);
               ("password", OStr password);
               ("cursor_factory", RealDictCursor)] in
  sys_raising (PgConnect (update conf opts)).

Section Programs.

(** [hash], on tuples of strings. *)
Variable hash : list string -> Z.

(** Lines 33-35; [connect_opts or {}] is [{}] for [None]. *)
Definition _conn_key (connect_opts : option Opts) : Z :=
  let connect_opts := get_default connect_opts [] in
  hash (sorted connect_opts).

Arguments _conn_key : simpl never.

(** Lines 38-46.  A connection object is true, [None] is not: [not conn]
    holds of [None] only, and [conn and conn.closed] reads [closed] only
    of a connection. *)
Definition _get_ctx_connection (connect_opts : option Opts) (create : bool)
  : DbProg (option Conn) :=
  let connect_opts := get_default connect_opts [] in
  let key := _conn_key (Some connect_opts) in
  has <- ctx HasPgconns ;;
  (if has then Ret tt else ctx NewPgconns) ;;
  conn <- ctx (PgconnsGet key) ;;
  again <- match conn with
           | None => Ret create
           | Some c => sys (ConnClosed c)
           end ;;
  if again
  then c <- connect connect_opts ;;
       ctx (PgconnsSet key c) ;;
       Ret (Some c)
  else Ret conn.

(** Lines 49-59, the generator as [list] consumes it: the rows yielded,
    in order.  [None.cursor] raises AttributeError. *)
Definition query (q : Statement) (conn : option Conn)
           (connect_opts : option Opts) (cursor_name : option string)
  : DbProg (list Row) :=
  conn <- match conn with
          | Some c => Ret (Some c)
          | None => _get_ctx_connection connect_opts true
          end ;;
  c <- match conn with
       | Some c => Ret c
       | None => Throw (UserException "AttributeError")
       end ;;
  cursor <- sys (ConnCursor c cursor_name) ;;
  finally
    (sys_raising (CursorExecute cursor q) ;;
     rows <- sys (CursorRows cursor) ;;
     match snd rows with
     | None => Ret (fst rows)
     | Some e =>
         if isinstance_ProgrammingError e then Ret (fst rows) else Throw e
     end)
    (sys (CursorClose cursor)).

(** Lines 61-62. *)
Definition fetchall (q : Statement) (conn : option Conn)
           (connect_opts : option Opts) : DbProg (list Row) :=
  query q conn connect_opts None.

(** Lines 65-68. *)
Definition fetchone (q : Statement) (conn : option Conn)
           (connect_opts : option Opts) : DbProg (option Row) :=
  L <- fetchall q conn connect_opts ;;
  assert (Nat.leb (List.length L) 1) ;;
  Ret (match L with [] => None | row :: _ => Some row end).

(** Lines 71-76. *)
Definition commit (connect_opts : option Opts) : DbProg unit :=
  conn <- _get_ctx_connection connect_opts false ;;
  match conn with
  | Some c => sys (LogDebug (COMMIT c)) ;; sys (ConnCommit c)
  | None => Ret tt
  end.

(** Lines 79-84. *)
Definition rollback (connect_opts : option Opts) : DbProg unit :=
  conn <- _get_ctx_connection connect_opts false ;;
  match conn with
  | Some c => sys (LogDebug (ROLLBACK c)) ;; sys (ConnRollback c)
  | None => Ret tt
  end.

(** [test.py], lines 18-25. *)
Definition test_main : DbProg unit :=
  fetchall (InsertJob "default" test_payload 3 5) None None ;;
  commit None.

End Programs.

(** What surrounds the module. *)
Record DbEnv := mkDbEnv {
  DbWorld : Type;
  db_answer : forall R, SysOp R -> DbWorld -> R;
  db_advance : forall R, SysOp R -> DbWorld -> DbWorld
}.

Arguments db_answer d {R} x w.
Arguments db_advance d {R} x w.

Definition ctx_answer {R} (o : CtxOp R) (c : Ctx) : R :=
  match o in CtxOp R return R with
  | HasPgconns => match c with Some _ => true | None => false end
  | NewPgconns => tt
  | PgconnsGet key => match c with Some d => conns_get key d | None => None end
  | PgconnsSet _ _ => tt
  end.

Definition ctx_update {R} (o : CtxOp R) (c : Ctx) : Ctx :=
  match o with
  | NewPgconns => Some []
  | PgconnsSet key conn => option_map (conns_set key conn) c
  | _ => c
  end.

(** The connection [ctx] holds under a key. *)
Definition cached (key : Z) (c : Ctx) : option Conn :=
  ctx_answer (PgconnsGet key) c.

Section Run.

Variable env : DbEnv.

Definition DbState : Type := Ctx * DbWorld env.

Definition op_answer {R} (o : DbOp R) (s : DbState) : R :=
  match o with
  | OnCtx o => ctx_answer o (fst s)
  | OnSys x => db_answer env x (snd s)
  end.

Definition op_next {R} (o : DbOp R) (s : DbState) : DbState :=
  match o with
  | OnCtx o => (ctx_update o (fst s), snd s)
  | OnSys x => (fst s, db_advance env x (snd s))
  end.

Definition run {A} (p : DbProg A) (s : DbState) : Run DbOp DbState A :=
  interp (@op_answer) (@op_next) p s.

End Run.

(** *** Reading the traces *)

Definition DbTrace := list (Entry DbOp).

(** The options given to [psycopg2.connect], call by call. *)
Fixpoint connects_of (tr : DbTrace) : list Opts :=
  match tr with
  | [] => []
  | Ev (OnSys (PgConnect conf)) _ :: tr' => conf :: connects_of tr'
  | _ :: tr' => connects_of tr'
  end.

(** The connections committed, rolled back, and given a cursor. *)
Fixpoint commits_of (tr : DbTrace) : list Conn :=
  match tr with
  | [] => []
  | Ev (OnSys (ConnCommit c)) _ :: tr' => c :: commits_of tr'
  | _ :: tr' => commits_of tr'
  end.

Fixpoint rollbacks_of (tr : DbTrace) : list Conn :=
  match tr with
  | [] => []
  | Ev (OnSys (ConnRollback c)) _ :: tr' => c :: rollbacks_of tr'
  | _ :: tr' => rollbacks_of tr'
  end.

Fixpoint cursors_on (tr : DbTrace) : list Conn :=
  match tr with
  | [] => []
  | Ev (OnSys (ConnCursor c _)) _ :: tr' => c :: cursors_on tr'
  | _ :: tr' => cursors_on tr'
  end.

(** The cursors opened and the cursors closed. *)
Definition cursor_of (e : Entry DbOp) : option Cursor :=
  match e with
  | Ev (OnSys x) r =>
      match x in SysOp R return R -> option Cursor with
      | ConnCursor _ _ => fun cur => Some cur
      | _ => fun _ => None
      end r
  | _ => None
  end.

Fixpoint opened (tr : DbTrace) : list Cursor :=
  match tr with
  | [] => []
  | e :: tr' =>
      match cursor_of e with
      | Some cur => cur :: opened tr'
      | None => opened tr'
      end
  end.

Fixpoint closed (tr : DbTrace) : list Cursor :=
  match tr with
  | [] => []
  | Ev (OnSys (CursorClose cur)) _ :: tr' => cur :: closed tr'
  | _ :: tr' => closed tr'
  end.

(** The end of a [with] block. *)
Definition is_close (e : Entry DbOp) : bool :=
  match e with
  | Ev (OnSys (CursorClose _)) _ => true
  | _ => false
  end.

(** An access to [ctx]: nothing leaves the module. *)
Definition on_ctx (e : Entry DbOp) : bool :=
  match e with
  | Ev (OnCtx _) _ => true
  | _ => false
  end.

(** The variables [connect] reads. *)
Definition pg_variables : list string :=
  ["PGHOST"; "PGPORT"; "PGDATABASE"; "PGUSER"; "PGPASSWORD"].

(** No connection is ever found closed. *)
Definition never_closed (env : DbEnv) : Prop :=
  forall c w, db_answer env (ConnClosed c) w = false.

(** A database that is up: the environment is set, connecting gives
    connection 1, a cursor is cursor 1, a statement executes and has no
    result set (the iteration ends with ProgrammingError), and a
    connection is found closed when [stale] says so. *)
Definition up (stale : Conn -> bool) : DbEnv :=
  mkDbEnv
    (fun R (x : SysOp R) (_ : unit) =>
       match x in SysOp R return R with
       | Environ name => Some (if String.eqb name "PGPORT" then "5432" else "pg")
       | IntOf _ => Some 5432
       | PgConnect _ => Returned 1%nat
       | ConnClosed c => stale c
       | ConnCursor _ _ => 1%nat
       | CursorExecute _ _ => Returned tt
       | CursorRows _ => ([], Some ProgrammingError)
       | CursorClose _ => tt
       | LogDebug _ => tt
       | ConnCommit _ => tt
       | ConnRollback _ => tt
       end)
    (fun _ _ w => w).

(** The same, with no PGDATABASE in the environment. *)
Definition unset_database : DbEnv :=
  mkDbEnv
    (fun R (x : SysOp R) (w : unit) =>
       match x in SysOp R return R with
       | Environ name =>
           if String.eqb name "PGDATABASE" then None
           else db_answer (up (fun _ => false)) (Environ name) w
       | x => db_answer (up (fun _ => false)) x w
       end)
    (fun _ _ w => w).

End Db.

(** * Properties *)

(** ** Programs and their runs *)

Section InterpFacts.

Variable E : Type -> Type.
Variable S : Type.
Variable ans : forall R, E R -> S -> R.
Variable nxt : forall R, E R -> S -> S.

Lemma interp_bind A B (p : Prog E A) (f : A -> Prog E B) s :
  interp ans nxt (bind p f) s = then_run ans nxt (interp ans nxt p s) f.
Proof.
  revert s.
  induction p as [a | e | R o k IH]; intros s.
  - unfold then_run; simpl. destruct (interp ans nxt (f a) s); reflexivity.
  - reflexivity.
  - simpl. rewrite IH. unfold then_run; simpl.
    destruct (outcome (interp ans nxt (k (ans o s)) (nxt o s)));
      reflexivity.
Qed.

Lemma ops_sat_bind (P : forall R, E R -> Prop) A B
      (p : Prog E A) (f : A -> Prog E B) :
  ops_sat P p -> (forall a, ops_sat P (f a)) -> ops_sat P (bind p f).
Proof.
  intros Hp Hf. induction Hp; simpl; auto using ops_sat.
Qed.

Lemma ops_sat_try (P : forall R, E R -> Prop) A
      (p : Prog E A) (h : exn -> option (Prog E A)) :
  ops_sat P p -> (forall e q, h e = Some q -> ops_sat P q) ->
  ops_sat P (try_except p h).
Proof.
  intros Hp Hh. induction Hp; simpl; auto using ops_sat.
  destruct (h e) eqn:He; eauto using ops_sat.
Qed.

Lemma ops_sat_for_each (P : forall R, E R -> Prop) X
      (l : list X) (body : X -> Prog E unit) :
  (forall x, ops_sat P (body x)) -> ops_sat P (for_each l body).
Proof.
  intros Hb. induction l; simpl; auto using ops_sat, ops_sat_bind.
Qed.

Lemma ops_sat_perform (P : forall R, E R -> Prop) R (o : E R) :
  P R o -> ops_sat P (perform o).
Proof. intros H. constructor; auto using ops_sat. Qed.

(** What holds of every operation of a program holds of every entry of
    its trace. *)
Lemma ops_sat_trace (P : forall R, E R -> Prop) (Q : Entry E -> Prop) A
      (p : Prog E A) s :
  (forall R (o : E R) r, P R o -> Q (Ev o r)) ->
  ops_sat P p -> Forall Q (trace (interp ans nxt p s)).
Proof.
  intros HPQ Hp. revert s. induction Hp; intros s; simpl; auto.
Qed.

End InterpFacts.

(** ** The dict *)

Lemma contains_cons k k' j (jobs : Registry) :
  contains k ((k', j) :: jobs) = String.eqb k k' || contains k jobs.
Proof. reflexivity. Qed.

Lemma contains_In k (jobs : Registry) :
  contains k jobs = true <-> In k (keys jobs).
Proof.
  induction jobs as [| [k' j] jobs IH]; simpl.
  - split; [discriminate | tauto].
  - rewrite contains_cons, orb_true_iff, IH, String.eqb_eq.
    split; intros [H | H]; auto.
Qed.

Lemma contains_false_In k (jobs : Registry) :
  contains k jobs = false <-> ~ In k (keys jobs).
Proof.
  rewrite <- contains_In. destruct (contains k jobs); split; congruence.
Qed.

Lemma lookup_contains k (jobs : Registry) :
  contains k jobs = true -> exists j, lookup k jobs = Some j.
Proof.
  induction jobs as [| [k' j] jobs IH]; simpl; [discriminate |].
  rewrite contains_cons. destruct (String.eqb k k'); simpl; eauto.
Qed.

Lemma lookup_not_contains k (jobs : Registry) :
  contains k jobs = false -> lookup k jobs = None.
Proof.
  induction jobs as [| [k' j] jobs IH]; simpl; [reflexivity |].
  rewrite contains_cons. destruct (String.eqb k k'); simpl; auto; discriminate.
Qed.

Lemma keys_remove_incl k (jobs : Registry) x :
  In x (keys (remove k jobs)) -> In x (keys jobs).
Proof.
  induction jobs as [| [k' j] jobs IH]; simpl; auto.
  destruct (String.eqb k k'); simpl; tauto.
Qed.

Lemma NoDup_remove k (jobs : Registry) :
  NoDup (keys jobs) -> NoDup (keys (remove k jobs)).
Proof.
  induction jobs as [| [k' j] jobs IH]; simpl; auto.
  intros H. inversion H; subst.
  destruct (String.eqb k k'); simpl; auto.
  constructor; auto. intros Hin. apply keys_remove_incl in Hin. contradiction.
Qed.

Lemma contains_remove k0 k (jobs : Registry) :
  NoDup (keys jobs) ->
  contains k (remove k0 jobs) = contains k jobs && negb (String.eqb k k0).
Proof.
  induction jobs as [| [k' j] jobs IH]; simpl; auto.
  intros H. inversion H as [| ? ? Hnot Hnd]; subst.
  rewrite contains_cons.
  destruct (String.eqb k0 k') eqn:E0.
  - apply String.eqb_eq in E0; subst k'.
    destruct (String.eqb k k0) eqn:E; simpl.
    + apply String.eqb_eq in E; subst k.
      apply contains_false_In; assumption.
    + rewrite andb_true_r. reflexivity.
  - rewrite contains_cons, IH by assumption.
    destruct (String.eqb k k') eqn:E; simpl; auto.
    apply String.eqb_eq in E; subst k'.
    rewrite String.eqb_sym in E0. rewrite E0. reflexivity.
Qed.

Lemma len_nonneg (jobs : Registry) : 0 <= len jobs.
Proof. unfold len; lia. Qed.

Lemma len_remove_le k (jobs : Registry) : len (remove k jobs) <= len jobs.
Proof.
  unfold len. induction jobs as [| [k' j] jobs IH]; simpl; [lia |].
  destruct (String.eqb k k'); simpl; lia.
Qed.

Lemma len_setitem k j (jobs : Registry) :
  len (setitem k j jobs) = if contains k jobs then len jobs else len jobs + 1.
Proof.
  unfold len. induction jobs as [| [k' j'] jobs IH]; simpl; [reflexivity |].
  rewrite contains_cons. destruct (String.eqb k k'); simpl; [reflexivity |].
  destruct (contains k jobs); simpl in *; lia.
Qed.

Lemma len_setitem_le k j (jobs : Registry) :
  len (setitem k j jobs) <= len jobs + 1.
Proof. rewrite len_setitem. destruct (contains k jobs); lia. Qed.

Lemma contains_keys k (jobs : Registry) :
  contains k jobs = existsb (String.eqb k) (keys jobs).
Proof.
  induction jobs as [| [k' j] jobs IH]; [reflexivity |].
  rewrite contains_cons, IH. reflexivity.
Qed.

Lemma keys_setitem_fresh k j (jobs : Registry) :
  contains k jobs = false -> keys (setitem k j jobs) = keys jobs ++ [k].
Proof.
  induction jobs as [| [k' j'] jobs IH]; simpl; [reflexivity |].
  rewrite contains_cons. destruct (String.eqb k k'); simpl; [discriminate |].
  intros H. rewrite IH by assumption. reflexivity.
Qed.

Lemma keys_setitem_present k j (jobs : Registry) :
  contains k jobs = true -> keys (setitem k j jobs) = keys jobs.
Proof.
  induction jobs as [| [k' j'] jobs IH]; simpl; [discriminate |].
  rewrite contains_cons. destruct (String.eqb k k') eqn:E; simpl.
  - apply String.eqb_eq in E. subst k'. reflexivity.
  - intros H. rewrite IH by assumption. reflexivity.
Qed.

Lemma NoDup_setitem k j (jobs : Registry) :
  NoDup (keys jobs) -> NoDup (keys (setitem k j jobs)).
Proof.
  intros H. destruct (contains k jobs) eqn:Hc.
  - rewrite keys_setitem_present by assumption. exact H.
  - rewrite keys_setitem_fresh by assumption.
    apply NoDup_app; auto.
    + repeat constructor. simpl. tauto.
    + intros x Hx [<- | []]. apply contains_false_In in Hc. contradiction.
Qed.

Lemma NoDup_replay (tr : DTrace) : forall jobs,
  NoDup (keys jobs) -> NoDup (keys (replay tr jobs)).
Proof.
  induction tr as [| [R [o | x] r] tr IH]; intros jobs H; simpl; auto.
  apply IH. destruct o; simpl; auto using NoDup_remove, NoDup_setitem.
Qed.

(** ** Runs of the dispatcher *)

Section RunFacts.

Variable env : Env.

Lemma run_bind A B (p : Main A) (f : A -> Main B) jobs w :
  run env (bind p f) jobs w
  = then_run (@op_answer env) (@op_next env) (run env p jobs w) f.
Proof. apply interp_bind. Qed.

(** The three observations of a sequence, by the outcome of its head. *)
Lemma run_bind_returned A B (p : Main A) (f : A -> Main B) jobs w a :
  outcome (run env p jobs w) = Returned a ->
  let r1 := run env p jobs w in
  let r2 := run env (f a) (jobs_after r1) (world_after r1) in
  trace (run env (bind p f) jobs w) = trace r1 ++ trace r2
  /\ outcome (run env (bind p f) jobs w) = outcome r2
  /\ final (run env (bind p f) jobs w) = final r2.
Proof.
  intros H. rewrite run_bind. unfold then_run. rewrite H. simpl.
  unfold run, jobs_after, world_after.
  destruct (final (interp (@op_answer env) (@op_next env) p (jobs, w)));
    simpl; auto.
Qed.

Lemma run_bind_raised A B (p : Main A) (f : A -> Main B) jobs w e :
  outcome (run env p jobs w) = Raised e ->
  trace (run env (bind p f) jobs w) = trace (run env p jobs w)
  /\ outcome (run env (bind p f) jobs w) = Raised e
  /\ final (run env (bind p f) jobs w) = final (run env p jobs w).
Proof.
  intros H. rewrite run_bind. unfold then_run. rewrite H. simpl. auto.
Qed.

(** Replaying the dict operations of the trace gives the dict the run
    leaves. *)
Lemma replay_run A (p : Main A) jobs w :
  replay (trace (run env p jobs w)) jobs = jobs_after (run env p jobs w).
Proof.
  unfold run, jobs_after. revert jobs w.
  induction p as [a | e | R o k IH]; intros jobs w; simpl; auto.
  destruct o as [o | x]; simpl; apply IH.
Qed.

End RunFacts.

(** ** The operations of each phase *)

Ltac ops_step :=
  match goal with
  | |- forall _, _ => intro
  | |- ops_sat _ (bind _ _) => apply ops_sat_bind
  | |- ops_sat _ (for_each _ _) => apply ops_sat_for_each
  | |- ops_sat _ (try_except _ _) => apply ops_sat_try
  | |- ops_sat _ (perform _) => apply ops_sat_perform
  | |- ops_sat _ (Ret _) => apply ops_Ret
  | |- ops_sat _ (Throw _) => apply ops_Throw
  | |- ops_sat _ (if ?b then _ else _) => destruct b
  | |- ops_sat _ (match ?x with _ => _ end) => destruct x
  | H : match ?e with _ => _ end = Some _ |- _ =>
      destruct e; try discriminate H; injection H as <-
  | |- ops_sat _ (Vis _ _) => apply ops_Vis
  | |- op_never _ _ => intro; reflexivity
  | |- harmless _ _ =>
      intros ? ?; split;
      [ unfold admitted; simpl;
        repeat match goal with
               | |- context [if ?b then _ else _] => destruct b
               end;
        reflexivity
      | simpl; first [apply Z.le_refl | apply len_remove_le] ]
  | |- op_in_phase _ _ =>
      intro; simpl;
      repeat match goal with
             | |- context [if ?b then _ else _] => destruct b
             end;
      auto
  end.

Ltac ops :=
  unfold release_lost, discover, poll_claim, start_claimed, handle_notify,
    claim_notified, complete_jobs, complete_job, reap_ready, reap_timed_out,
    jobs_pop, Job_result, pipe_recv, Job_timed_out, Job_ready, Job_elapsed,
    Job_exitcode, Job_is_alive, Job_terminate, Job_kill, Job_pid, Job_close,
    Job_init, db_fetchone, db_fetchall, db_commit, assert, dict, call;
  repeat ops_step.

Lemma release_lost_ops args it :
  ops_sat (op_in_phase Sweep) (release_lost args it).
Proof. ops. Qed.

Lemma complete_jobs_ops : ops_sat (op_in_phase Reap) complete_jobs.
Proof. ops. Qed.

Lemma discover_ops args : ops_sat (op_in_phase Discover) (discover args).
Proof. ops. Qed.

Lemma phases_app (t1 t2 : DTrace) : phases (t1 ++ t2) = phases t1 ++ phases t2.
Proof.
  induction t1 as [| e t1 IH]; simpl; auto.
  destruct (phase_of e); simpl; congruence.
Qed.

Lemma phases_single ph (t : DTrace) :
  Forall (fun e => phase_of e = Some ph \/ phase_of e = None) t ->
  Forall (eq ph) (phases t).
Proof.
  induction 1 as [| e t [H | H] _ IH]; simpl; auto; rewrite H; auto.
Qed.

Lemma in_order_app rank l1 l2 :
  in_order rank l1 = true -> in_order rank l2 = true ->
  (forall a b, In a l1 -> In b l2 -> (rank a <= rank b)%nat) ->
  in_order rank (l1 ++ l2) = true.
Proof.
  induction l1 as [| a l1 IH]; simpl; auto.
  rewrite !andb_true_iff, !forallb_forall. intros [Ha Hl1] Hl2 Hcross.
  split.
  - intros b Hb. apply in_app_or in Hb. destruct Hb as [Hb | Hb]; auto.
    apply Nat.leb_le. auto.
  - apply IH; auto.
Qed.

Lemma in_order_const rank ph l : Forall (eq ph) l -> in_order rank l = true.
Proof.
  induction 1 as [| a l <- Hl IH]; simpl; auto.
  rewrite IH, andb_true_r. apply forallb_forall. intros b Hb.
  rewrite Forall_forall in Hl. rewrite <- (Hl b Hb). apply Nat.leb_refl.
Qed.

Lemma count_app f (t1 t2 : DTrace) :
  count f (t1 ++ t2) = (count f t1 + count f t2)%nat.
Proof. unfold count. rewrite filter_app, length_app. reflexivity. Qed.

Lemma count_none f (t : DTrace) :
  Forall (fun e => f e = false) t -> count f t = 0%nat.
Proof.
  unfold count. induction 1 as [| e t He _ IH]; simpl; auto.
  rewrite He. assumption.
Qed.

Section Phases.

Variable env : Env.
Variable args : Args.

Lemma phase_trace ph A (p : Main A) jobs w :
  ops_sat (op_in_phase ph) p ->
  Forall (fun e => phase_of e = Some ph \/ phase_of e = None)
         (trace (run env p jobs w)).
Proof.
  intros H. unfold run. eapply ops_sat_trace; [| exact H].
  intros R o r Ho. apply Ho.
Qed.

Lemma for_each_print X (line : X -> LogLine) (l : list X) jobs w :
  let r := run env (for_each l (fun x => call (Print (line x)))) jobs w in
  trace r = map (fun x => Ev (Ext (Print (line x))) tt) l
  /\ outcome r = Returned tt
  /\ jobs_after r = jobs.
Proof.
  unfold run, jobs_after. revert w.
  induction l as [| x l IH]; intros w; simpl; auto.
  destruct (answer env (Print (line x)) w).
  destruct (IH (advance env (Print (line x)) w)) as (Ht & Ho & Hj).
  rewrite Ht, Ho, Hj. auto.
Qed.

(** The sweep, run: nothing unless the counter is 1 modulo 10; then the
    keys of the dict, the query, and, if rows came back, a commit and a
    line per row.  It always returns and leaves the dict alone. *)
Lemma release_lost_run it jobs w :
  let r := run env (release_lost args it) jobs w in
  let q := release_lost_jobs (worker_id args) (queues args) (keys jobs) in
  let rows := answer env (DbFetchall q) w in
  trace r
  = (if it mod 10 =? 1 then
       Ev (Reg JobsKeys) (keys jobs) :: Ev (Ext (DbFetchall q)) rows ::
       match rows with
       | [] => []
       | _ :: _ =>
           Ev (Ext DbCommit) tt ::
           map (fun row => Ev (Ext (Print (ReleasingLostJob row))) tt) rows
       end
     else [])
  /\ outcome r = Returned tt
  /\ jobs_after r = jobs.
Proof.
  unfold release_lost. destruct (it mod 10 =? 1); [| simpl; auto].
  unfold run, jobs_after; simpl.
  set (q := release_lost_jobs _ _ _).
  destruct (answer env (DbFetchall q) w) as [| row rows] eqn:Hrows; simpl; auto.
  destruct (answer env DbCommit (advance env (DbFetchall q) w)).
  set (w' := advance env DbCommit _).
  destruct (for_each_print ReleasingLostJob (row :: rows) jobs w')
    as (Ht & Ho & Hj).
  unfold run, jobs_after in Ht, Ho, Hj. simpl in Ht, Ho, Hj.
  rewrite Ht, Ho, Hj. auto.
Qed.

(** An iteration, run: the sweep, then the reaping, then, unless the
    reaping raised, the discovery. *)
Lemma iteration_run it jobs w :
  let r1 := run env (release_lost args it) jobs w in
  let r2 := run env complete_jobs jobs (world_after r1) in
  let r3 := run env (discover args) (jobs_after r2) (world_after r2) in
  run env (iteration args it) jobs w
  = match outcome r2 with
    | Returned _ => mkRun (trace r1 ++ trace r2 ++ trace r3) (outcome r3) (final r3)
    | Raised e => mkRun (trace r1 ++ trace r2) (Raised e) (final r2)
    end.
Proof.
  intros r1 r2 r3. unfold iteration.
  destruct (release_lost_run it jobs w) as (_ & Ho1 & Hj1).
  fold r1 in Ho1, Hj1.
  rewrite run_bind. unfold then_run. fold r1. rewrite Ho1.
  assert (Hf : final r1 = (jobs, world_after r1)).
  { unfold jobs_after in Hj1. unfold world_after.
    destruct (final r1); simpl in *; congruence. }
  rewrite Hf.
  change (interp (@op_answer env) (@op_next env)
            (complete_jobs;; discover args) (jobs, world_after r1))
    with (run env (complete_jobs;; discover args) jobs (world_after r1)).
  rewrite run_bind. unfold then_run. fold r2.
  destruct (outcome r2) as [a | e]; cbn [trace outcome final]; [| reflexivity].
  assert (Hf2 : final r2 = (jobs_after r2, world_after r2)).
  { unfold jobs_after, world_after. destruct (final r2); reflexivity. }
  rewrite Hf2. reflexivity.
Qed.

End Phases.

(** ** The order of the phases and the cadence of the sweep *)

Lemma count_sweep_prints (rows : list Row) :
  count is_sweep
    (map (fun row => Ev (Ext (Print (ReleasingLostJob row))) tt) rows) = 0%nat.
Proof. induction rows; simpl; auto. Qed.

Lemma not_sweep_in_phase ph (t : DTrace) :
  ph <> Sweep ->
  Forall (fun e => phase_of e = Some ph \/ phase_of e = None) t ->
  count is_sweep t = 0%nat.
Proof.
  intros Hph H. apply count_none. eapply Forall_impl; [| exact H].
  intros [R [o | x] r]; simpl; auto.
  unfold is_sweep; simpl.
  destruct x; auto. destruct q; auto.
  intros [H1 | H1]; simpl in H1; congruence.
Qed.

(** C9, as the code has it: on every iteration the operations of the
    sweep for lost jobs (when it runs) come first, then those of the
    reaping of ready and timed-out jobs, then the wait for a notification
    and the claims. *)
Theorem iteration_phase_order (env : Env) (args : Args) it jobs w :
  in_order source_rank (phases (trace (run env (iteration args it) jobs w)))
  = true.
Proof.
  rewrite iteration_run.
  set (r1 := run env (release_lost args it) jobs w).
  set (r2 := run env complete_jobs jobs (world_after r1)).
  set (r3 := run env (discover args) (jobs_after r2) (world_after r2)).
  assert (H1 : Forall (eq Sweep) (phases (trace r1)))
    by (apply phases_single, phase_trace, release_lost_ops).
  assert (H2 : Forall (eq Reap) (phases (trace r2)))
    by (apply phases_single, phase_trace, complete_jobs_ops).
  assert (H3 : Forall (eq Discover) (phases (trace r3)))
    by (apply phases_single, phase_trace, discover_ops).
  rewrite Forall_forall in H1, H2, H3.
  assert (H12 : in_order source_rank (phases (trace r1) ++ phases (trace r2))
                = true).
  { apply in_order_app.
    - eapply in_order_const. apply Forall_forall. exact H1.
    - eapply in_order_const. apply Forall_forall. exact H2.
    - intros a b Ha Hb. rewrite <- (H1 a Ha), <- (H2 b Hb). simpl. lia. }
  destruct (outcome r2); cbn [trace].
  - rewrite app_assoc, !phases_app. apply in_order_app; auto.
    + eapply in_order_const. apply Forall_forall. exact H3.
    + intros x y Hx Hy. rewrite <- (H3 y Hy).
      apply in_app_or in Hx. destruct Hx as [Hx | Hx];
        [rewrite <- (H1 x Hx) | rewrite <- (H2 x Hx)]; simpl; lia.
  - rewrite phases_app. exact H12.
Qed.

(** C9, as the specification states it (reaping before the sweep),
    fails: on iteration 11, with the finished job "a" in the dict, the
    query [release_lost_jobs] is sent before "a" is reaped. *)
Lemma reap_before_sweep_refuted :
  in_order reap_first_rank
    (phases (trace (run (script_env settled) (iteration test_args 11)
                        one_job 0%nat)))
  = false
  /\ firstn 4 (phases (trace (run (script_env settled) (iteration test_args 11)
                                 one_job 0%nat)))
     = [Sweep; Sweep; Reap; Reap].
Proof. split; vm_compute; reflexivity. Qed.

Lemma count_commit_prints (rows : list Row) :
  count is_commit
    (map (fun row => Ev (Ext (Print (ReleasingLostJob row))) tt) rows) = 0%nat.
Proof. induction rows; simpl; auto. Qed.

Lemma count_set_prints k (rows : list Row) :
  count (is_set k)
    (map (fun row => Ev (Ext (Print (ReleasingLostJob row))) tt) rows) = 0%nat.
Proof. induction rows; simpl; auto. Qed.

Lemma count_cons f (e : Entry Op) (t : DTrace) :
  count f (e :: t) = ((if f e then 1 else 0) + count f t)%nat.
Proof. unfold count; simpl. destruct (f e); reflexivity. Qed.

Lemma iteration_sweeps (env : Env) (args : Args) it jobs w :
  count is_sweep (trace (run env (iteration args it) jobs w))
  = if it mod 10 =? 1 then 1%nat else 0%nat.
Proof.
  rewrite iteration_run.
  set (r1 := run env (release_lost args it) jobs w).
  set (r2 := run env complete_jobs jobs (world_after r1)).
  set (r3 := run env (discover args) (jobs_after r2) (world_after r2)).
  assert (H1 : count is_sweep (trace r1)
               = if it mod 10 =? 1 then 1%nat else 0%nat).
  { destruct (release_lost_run env args it jobs w) as (Ht & _).
    fold r1 in Ht. rewrite Ht.
    destruct (it mod 10 =? 1); [| reflexivity].
    rewrite !count_cons. simpl.
    destruct (answer env _ w); [reflexivity |].
    rewrite count_cons, count_sweep_prints. reflexivity. }
  assert (H2 : count is_sweep (trace r2) = 0%nat).
  { apply not_sweep_in_phase with (ph := Reap); [discriminate |].
    apply phase_trace, complete_jobs_ops. }
  assert (H3 : count is_sweep (trace r3) = 0%nat).
  { apply not_sweep_in_phase with (ph := Discover); [discriminate |].
    apply phase_trace, discover_ops. }
  destruct (outcome r2); cbn [trace]; rewrite !count_app; lia.
Qed.

(** Along the loop, one sweep per iteration whose counter is 1 modulo
    10, as long as the iterations return. *)
Lemma main_loop_sweeps (env : Env) (args : Args) n :
  forall it jobs w,
    let r := run env (main_loop args n it) jobs w in
    (count is_sweep (trace r) <= sweeps_due n it)%nat
    /\ (outcome r = Returned tt -> count is_sweep (trace r) = sweeps_due n it).
Proof.
  induction n as [| n IH]; intros it jobs w r; subst r.
  - split; reflexivity.
  - cbn [main_loop sweeps_due].
    pose proof (iteration_sweeps env args (it + 1) jobs w) as Hit.
    destruct (outcome (run env (iteration args (it + 1)) jobs w))
      as [[] | e] eqn:Ho1.
    + destruct (run_bind_returned env (iteration args (it + 1))
                  (fun _ => main_loop args n (it + 1)) jobs w Ho1)
        as (Ht & Ho & _).
      rewrite Ht, Ho, count_app, Hit.
      match goal with
      | |- context [run env (main_loop args n (it + 1)) ?j ?w'] =>
          destruct (IH (it + 1) j w') as (Hle & Heq)
      end.
      split; [lia |]. intros H. rewrite (Heq H). reflexivity.
    + destruct (run_bind_raised env (iteration args (it + 1))
                  (fun _ => main_loop args n (it + 1)) jobs w Ho1)
        as (Ht & Ho & _).
      rewrite Ht, Ho, Hit. split; [lia | discriminate].
Qed.

(** C10: the sweep for lost jobs is sent on the iterations whose counter
    is 1 modulo 10 and on no other; the counter starting at 0 and being
    incremented first, the very first operations of the loop after
    startup are the reading of the (empty) dict and the sweep query, ahead
    of any reaping, waiting or claiming; from one sweep the next is 10
    iterations later, with none in between, so a loop whose iterations
    return has sent [sweeps_due] sweeps; the sweep commits exactly when
    rows came back, and it never stores anything in the dict. *)
Theorem sweep_cadence (env : Env) (args : Args) :
  (forall it jobs w,
      count is_sweep (trace (run env (iteration args it) jobs w))
      = if it mod 10 =? 1 then 1%nat else 0%nat)
  /\ (forall n w, exists rows rest,
        trace (run env (main_loop args (S n) 0) [] w)
        = Ev (Reg JobsKeys) []
          :: Ev (Ext (DbFetchall
                        (release_lost_jobs (worker_id args) (queues args) [])))
                rows
          :: rest)
  /\ (forall it, it mod 10 = 1 ->
        (it + 10) mod 10 = 1
        /\ forall d, 0 < d < 10 -> (it + d) mod 10 <> 1)
  /\ (forall n w,
        let r := run env (main_loop args n 0) [] w in
        (count is_sweep (trace r) <= sweeps_due n 0)%nat
        /\ (outcome r = Returned tt ->
            count is_sweep (trace r) = sweeps_due n 0))
  /\ (forall it jobs w,
        let r := run env (release_lost args it) jobs w in
        let rows :=
          answer env (DbFetchall (release_lost_jobs (worker_id args)
                                    (queues args) (keys jobs))) w in
        count is_commit (trace r)
        = (if it mod 10 =? 1
           then match rows with [] => 0%nat | _ :: _ => 1%nat end
           else 0%nat)
        /\ (forall k, count (is_set k) (trace r) = 0%nat)
        /\ jobs_after r = jobs
        /\ outcome r = Returned tt).
Proof.
  split; [| split; [| split; [| split]]].
  - apply iteration_sweeps.
  - intros n w. cbn [main_loop]. rewrite run_bind. unfold then_run.
    rewrite iteration_run.
    destruct (release_lost_run env args (0 + 1) [] w) as (Ht & _).
    set (r1 := run env (release_lost args (0 + 1)) [] w) in *.
    set (r2 := run env complete_jobs [] (world_after r1)).
    change ((0 + 1) mod 10 =? 1) with true in Ht. cbv iota in Ht.
    change (keys []) with (@nil JobId) in Ht.
    destruct (outcome r2); cbn [trace outcome final].
    + match goal with
      | |- context [outcome ?r] => destruct (outcome r)
      end; cbn [trace]; rewrite Ht; do 2 eexists; reflexivity.
    + rewrite Ht; do 2 eexists; reflexivity.
  - intros it H. split.
    + rewrite <- Z.add_mod_idemp_l, H by lia. reflexivity.
    + intros d Hd. rewrite <- Z.add_mod_idemp_l, H by lia.
      assert (Hmod : (1 + d) mod 10 = if d =? 9 then 0 else 1 + d).
      { destruct (d =? 9) eqn:E.
        - apply Z.eqb_eq in E; subst d. reflexivity.
        - apply Z.eqb_neq in E. apply Z.mod_small. lia. }
      rewrite Hmod. destruct (d =? 9); lia.
  - intros n w. apply main_loop_sweeps.
  - intros it jobs w r rows. subst r rows.
    destruct (release_lost_run env args it jobs w) as (Ht & Ho & Hj).
    split; [| split; [| split]]; auto.
    + rewrite Ht. destruct (it mod 10 =? 1); [| reflexivity].
      rewrite !count_cons. simpl.
      destruct (answer env _ w); [reflexivity |].
      rewrite count_cons, count_commit_prints. reflexivity.
    + intros k. rewrite Ht. destruct (it mod 10 =? 1); [| reflexivity].
      rewrite !count_cons. simpl.
      destruct (answer env _ w); [reflexivity |].
      rewrite count_cons, count_set_prints. reflexivity.
Qed.

(** One sweep in the first ten iterations, the second in the eleventh,
    the third in the twenty-first. *)
Example sweeps_due_values :
  sweeps_due 10 0 = 1%nat /\ sweeps_due 11 0 = 2%nat
  /\ sweeps_due 20 0 = 2%nat /\ sweeps_due 21 0 = 3%nat.
Proof. repeat split. Qed.

(** ** Reaping *)

Section Reaping.

Variable env : Env.

(** The branch of a ready job whose message can be read, run: the pop,
    the message (read from the pipe unless cached), the exit code if the
    message carries no error, the report; then the commit, unless the
    store answered the report with two rows or more. *)
Lemma reap_ready_run k job j' jobs w c :
  lookup k jobs = Some j' ->
  answer env (ProcExitcode (j_process job)) w = Some c ->
  (j_result job = None ->
   answer env (PipeRecv (j_process job))
     (advance env (ProcExitcode (j_process job)) w) <> None) ->
  let p := j_process job in
  let r := run env (reap_ready k job) jobs w in
  exists msg ec rows,
    trace r
    = [Ev (Reg (JobsPop k)) (Some j'); Ev (Ext (ProcExitcode p)) (Some c)]
      ++ match j_result job with
         | None => [Ev (Ext (PipeRecv p)) (Some msg)]
         | Some _ => []
         end
      ++ (if truthy (m_exc msg) then [] else [Ev (Ext (ProcExitcode p)) ec])
      ++ Ev (Ext (DbFetchall (ready_report k msg ec))) rows
      :: (if Nat.leb (List.length rows) 1 then [Ev (Ext DbCommit) tt] else [])
    /\ outcome r = (if Nat.leb (List.length rows) 1
                    then Returned tt else Raised AssertionError)
    /\ jobs_after r = remove k jobs
    /\ (forall m, j_result job = Some m -> msg = m)
    /\ (exit_codes_stick env -> truthy (m_exc msg) = false -> ec = Some c)
    /\ (store_single_rows env -> Nat.leb (List.length rows) 1 = true)
    /\ (j_result job = None ->
        answer env (PipeRecv p) (advance env (ProcExitcode p) w) = Some msg).
Proof.
  intros Hk Hc Harrive p r. subst r.
  set (w1 := advance env (ProcExitcode p) w).
  assert (Hm : exists msg,
             match j_result job with
             | Some m => m = msg
             | None => answer env (PipeRecv p) w1 = Some msg
             end).
  { destruct (j_result job) as [m |]; [eauto |].
    destruct (answer env (PipeRecv p) w1) as [m |] eqn:E; [eauto |].
    exfalso. apply Harrive; [reflexivity | exact E]. }
  destruct Hm as [msg Hm].
  set (w2 := match j_result job with
             | Some _ => w1
             | None => advance env (PipeRecv p) w1
             end).
  set (ec := if truthy (m_exc msg)
             then Some 1 else answer env (ProcExitcode p) w2).
  set (w3 := if truthy (m_exc msg)
             then w2 else advance env (ProcExitcode p) w2).
  exists msg, ec, (answer env (DbFetchall (ready_report k msg ec)) w3).
  assert (Hec : exit_codes_stick env -> truthy (m_exc msg) = false ->
                ec = Some c).
  { intros Hstick Hexc. subst ec w2. rewrite Hexc.
    destruct (j_result job); [| apply Hstick]; apply Hstick, Hc. }
  assert (Hmsg : forall m, j_result job = Some m -> msg = m).
  { intros m Heq. rewrite Heq in Hm. symmetry. exact Hm. }
  assert (Hrows : store_single_rows env ->
                  Nat.leb (List.length
                             (answer env (DbFetchall (ready_report k msg ec)) w3))
                          1 = true).
  { intros H. apply Nat.leb_le, H. unfold ready_report.
    destruct (truthy (m_exc msg)); reflexivity. }
  assert (Hread : j_result job = None ->
                  answer env (PipeRecv p) w1 = Some msg).
  { intros Heq. rewrite Heq in Hm. exact Hm. }
  revert Hec Hmsg Hrows Hread.
  unfold run, jobs_after, reap_ready, jobs_pop, Job_result, pipe_recv,
    Job_ready, Job_exitcode, db_fetchone, db_fetchall, db_commit, dict, call.
  simpl. rewrite Hk. simpl. subst p. rewrite Hc. simpl.
  subst w3 ec w2 w1. unfold ready_report.
  destruct (j_result job) as [m |]; simpl;
    [subst m | rewrite Hm; simpl];
    destruct (truthy (m_exc msg)); simpl;
    match goal with
    | |- context [Nat.leb (List.length ?l) 1] =>
        destruct (Nat.leb (List.length l) 1)
    end; simpl;
    repeat match goal with
           | |- context [answer env DbCommit ?w] =>
               destruct (answer env DbCommit w)
           end;
    intros; repeat split; auto.
Qed.

(** The branch of a ready job whose child has sent nothing, run: the
    pop, and [recv] raises EOFError; nothing is reported. *)
Lemma reap_ready_silent k job j' jobs w c :
  lookup k jobs = Some j' ->
  answer env (ProcExitcode (j_process job)) w = Some c ->
  j_result job = None ->
  answer env (PipeRecv (j_process job))
    (advance env (ProcExitcode (j_process job)) w) = None ->
  let p := j_process job in
  run env (reap_ready k job) jobs w
  = mkRun [Ev (Reg (JobsPop k)) (Some j'); Ev (Ext (ProcExitcode p)) (Some c);
           Ev (Ext (PipeRecv p)) None]
          (Raised EOFError)
          (remove k jobs,
           advance env (PipeRecv p) (advance env (ProcExitcode p) w)).
Proof.
  intros Hk Hc Hres Hnone p. subst p.
  unfold run, reap_ready, jobs_pop, Job_result, pipe_recv, Job_ready, dict,
    call.
  simpl. rewrite Hk. simpl. rewrite Hc. simpl. rewrite Hres. simpl.
  rewrite Hnone. reflexivity.
Qed.

(** The branch of a timed-out job, run: the pop, the escalation, the
    exit code, the release, the report of the failure; then the commit,
    unless the store answered the report with two rows or more. *)
Lemma reap_timed_out_run k job j' jobs w :
  lookup k jobs = Some j' ->
  let p := j_process job in
  let r := run env (reap_timed_out k job) jobs w in
  exists alive ec closed pid rows,
    trace r
    = Ev (Reg (JobsPop k)) (Some j')
      :: escalation p alive
      ++ Ev (Ext (ProcExitcode p)) ec
      :: release p closed pid
      ++ Ev (Ext (DbFetchall (fail_job k (timed_out_result ec)))) rows
      :: (if Nat.leb (List.length rows) 1 then [Ev (Ext DbCommit) tt] else [])
    /\ outcome r = (if Nat.leb (List.length rows) 1
                    then Returned tt else Raised AssertionError)
    /\ jobs_after r = remove k jobs
    /\ alive = answer env (ProcIsAlive p)
                  (advance env (Sleep 3) (advance env (ProcTerminate p) w))
    /\ (store_single_rows env -> Nat.leb (List.length rows) 1 = true).
Proof.
  intros Hk p r. subst r.
  set (w2 := advance env (Sleep 3) (advance env (ProcTerminate p) w)).
  set (alive := answer env (ProcIsAlive p) w2).
  set (w3 := advance env (ProcIsAlive p) w2).
  set (w4 := if alive
             then advance env (Sleep 1) (advance env (ProcKill p) w3)
             else w3).
  set (ec := answer env (ProcExitcode p) w4).
  set (w5 := advance env (ProcExitcode p) w4).
  set (closed := answer env (ProcClose p) w5).
  set (w6 := advance env (ProcClose p) w5).
  set (pid := answer env (ProcPid p) w6).
  set (w7 := if closed
             then w6
             else advance env (Print (ProcessNotDead pid))
                    (advance env (ProcPid p) w6)).
  exists alive, ec, closed, pid,
    (answer env (DbFetchall (fail_job k (timed_out_result ec))) w7).
  assert (Hrows : store_single_rows env ->
                  Nat.leb (List.length
                             (answer env
                                (DbFetchall (fail_job k (timed_out_result ec)))
                                w7))
                          1 = true).
  { intros H. apply Nat.leb_le, H. reflexivity. }
  revert Hrows.
  unfold run, jobs_after, reap_timed_out, jobs_pop, Job_terminate,
    Job_is_alive, Job_kill, Job_exitcode, Job_close, Job_pid,
    db_fetchone, db_fetchall, db_commit, dict, call, escalation, release,
    timed_out_result.
  simpl. rewrite Hk. simpl.
  subst w7 pid w6 closed w5 ec w4 w3 alive w2 p.
  destruct (answer env (ProcTerminate (j_process job)) w).
  destruct (answer env (Sleep 3) _).
  destruct (answer env (ProcIsAlive (j_process job)) _); simpl;
    repeat match goal with
           | |- context [answer env (ProcKill ?p) ?w] =>
               destruct (answer env (ProcKill p) w)
           | |- context [answer env (Sleep ?n) ?w] =>
               destruct (answer env (Sleep n) w)
           end;
    match goal with
    | |- context [answer env (ProcClose ?p) ?w] =>
        destruct (answer env (ProcClose p) w)
    end; simpl;
    repeat match goal with
           | |- context [answer env (Print ?l) ?w] =>
               destruct (answer env (Print l) w)
           end;
    match goal with
    | |- context [Nat.leb (List.length ?l) 1] =>
        destruct (Nat.leb (List.length l) 1)
    end; simpl;
    repeat match goal with
           | |- context [answer env DbCommit ?w] =>
               destruct (answer env DbCommit w)
           end;
    intros; repeat split; auto.
Qed.

(** [complete_job], run: the exit code is read; a job that has one is
    reaped as ready; for another the clock is read and the job reaped as
    timed out when more than its timeout has elapsed, left alone
    otherwise. *)
Lemma complete_job_run k job jobs w :
  let p := j_process job in
  let c0 := answer env (ProcExitcode p) w in
  let w1 := advance env (ProcExitcode p) w in
  let now := answer env UtcNow w1 in
  let w2 := advance env UtcNow w1 in
  run env (complete_job (k, job)) jobs w
  = match c0 with
    | Some _ =>
        prepend [Ev (Ext (ProcExitcode p)) c0] (run env (reap_ready k job) jobs w1)
    | None =>
        if r_timeout (j_row job) * 1000000 <? now - r_started_at (j_row job)
        then prepend [Ev (Ext (ProcExitcode p)) c0; Ev (Ext UtcNow) now]
                     (run env (reap_timed_out k job) jobs w2)
        else mkRun [Ev (Ext (ProcExitcode p)) c0; Ev (Ext UtcNow) now]
                   (Returned tt) (jobs, w2)
    end.
Proof.
  intros p c0 w1 now w2. subst c0 now w2 w1 p.
  unfold run, complete_job, Job_ready, Job_timed_out, Job_elapsed, call,
    prepend.
  simpl.
  destruct (answer env (ProcExitcode (j_process job)) w); simpl;
    [reflexivity |].
  match goal with
  | |- context [if ?b then _ else _] => destruct b
  end; reflexivity.
Qed.

End Reaping.


Lemma settled_exit_codes_stick : exit_codes_stick (script_env settled).
Proof. intros p c R x w H. exact H. Qed.

Lemma settled_single_rows : store_single_rows (script_env settled).
Proof. intros q w _. simpl. lia. Qed.


Example scenario_B_trace :
  trace (run (script_env settled) (complete_job ("a", job_a)) one_job 0%nat)
  = [Ev (Ext (ProcExitcode 7%nat)) (Some 0);
     Ev (Reg (JobsPop "a")) (Some job_a);
     Ev (Ext (ProcExitcode 7%nat)) (Some 0);
     Ev (Ext (PipeRecv 7%nat)) (Some passed);
     Ev (Ext (ProcExitcode 7%nat)) (Some 0);
     Ev (Ext (DbFetchall
                (finish_job "a" (mkResult (VStr "Passed") None (Some 0))))) [];
     Ev (Ext DbCommit) tt].
Proof. reflexivity. Qed.


Lemma hung_single_rows : store_single_rows (script_env hung).
Proof. intros q w _. simpl. lia. Qed.


Example scenario_A_trace :
  trace (run (script_env hung) (complete_job ("a", job_a)) one_job 0%nat)
  = [Ev (Ext (ProcExitcode 7%nat)) None;
     Ev (Ext UtcNow) 6000000;
     Ev (Reg (JobsPop "a")) (Some job_a);
     Ev (Ext (ProcTerminate 7%nat)) tt;
     Ev (Ext (Sleep 3)) tt;
     Ev (Ext (ProcIsAlive 7%nat)) true;
     Ev (Ext (ProcKill 7%nat)) tt;
     Ev (Ext (Sleep 1)) tt;
     Ev (Ext (ProcExitcode 7%nat)) (Some (-9));
     Ev (Ext (ProcClose 7%nat)) true;
     Ev (Ext (DbFetchall
                (fail_job "a" (mkResult VNone (Some "timed out") (Some (-9))))))
        [];
     Ev (Ext DbCommit) tt].
Proof. reflexivity. Qed.



(** ** Every job is reaped once *)

Section Once.

Variable env : Env.
Hypothesis Hstick : exit_codes_stick env.
Hypothesis Hrows : store_single_rows env.

(** One job of the snapshot, examined.  Found ready or late, it is
    popped, once; then it is reported once, by [finish_job] or [fail_job]
    if it was ready, by [fail_job] if it was not, unless its pipe has
    nothing to read: then [recv] raises EOFError and there is no report.
    Found neither ready nor late, it is left in the dict, with neither
    pop nor report. *)
Lemma complete_job_counts k0 job cur w :
  contains k0 cur = true ->
  let r := run env (complete_job (k0, job)) cur w in
  let one k := if String.eqb k k0 then 1%nat else 0%nat in
  if found_ready env job w || found_late env job w
  then jobs_after r = remove k0 cur
       /\ (forall k, count (is_pop k) (trace r) = one k)
       /\ if found_silent env job w
          then outcome r = Raised EOFError
               /\ forall k, count (is_finish k) (trace r) = 0%nat
                            /\ count (is_fail k) (trace r) = 0%nat
          else outcome r = Returned tt
               /\ forall k,
                    (count (is_finish k) (trace r)
                     + count (is_fail k) (trace r))%nat = one k
                    /\ (found_ready env job w = false ->
                        count (is_finish k) (trace r) = 0%nat)
  else outcome r = Returned tt
       /\ jobs_after r = cur
       /\ forall k,
            count (is_pop k) (trace r) = 0%nat
            /\ count (is_finish k) (trace r) = 0%nat
            /\ count (is_fail k) (trace r) = 0%nat.
Proof.
  intros Hin r one. subst r.
  destruct (lookup_contains _ _ Hin) as [j' Hk].
  rewrite complete_job_run.
  unfold found_silent, found_ready, found_late.
  destruct (answer env (ProcExitcode (j_process job)) w) as [c |] eqn:Hc.
  - assert (Hc1 : answer env (ProcExitcode (j_process job))
                    (advance env (ProcExitcode (j_process job)) w) = Some c)
      by (apply Hstick, Hc).
    cbn [orb andb].
    destruct (j_result job) as [m |] eqn:Hres;
      [| destruct (answer env (PipeRecv (j_process job)) _) as [m |] eqn:Hm].
    + destruct (@reap_ready_run env k0 job j' cur _ c Hk Hc1)
        as (msg & ec & rows & Ht & Ho & Hj & _ & _ & Hle & _);
        [congruence |].
      unfold prepend, jobs_after in *. cbn [trace outcome final].
      rewrite Ht, Ho, Hj, Hres, (Hle Hrows). unfold ready_report, one.
      split; [reflexivity |]. split.
      * intros k. destruct (truthy (m_exc msg));
          unfold count; simpl; destruct (String.eqb k k0); reflexivity.
      * split; [reflexivity |].
        intros k. destruct (truthy (m_exc msg));
          unfold count, is_finish, is_fail; simpl;
          destruct (String.eqb k k0); split; auto; discriminate.
    + destruct (@reap_ready_run env k0 job j' cur _ c Hk Hc1)
        as (msg & ec & rows & Ht & Ho & Hj & _ & _ & Hle & _);
        [intros _; rewrite Hm; discriminate |].
      unfold prepend, jobs_after in *. cbn [trace outcome final].
      rewrite Ht, Ho, Hj, Hres, (Hle Hrows). unfold ready_report, one.
      split; [reflexivity |]. split.
      * intros k. destruct (truthy (m_exc msg));
          unfold count; simpl; destruct (String.eqb k k0); reflexivity.
      * split; [reflexivity |].
        intros k. destruct (truthy (m_exc msg));
          unfold count, is_finish, is_fail; simpl;
          destruct (String.eqb k k0); split; auto; discriminate.
    + rewrite (@reap_ready_silent env k0 job j' cur _ c Hk Hc1 Hres Hm).
      unfold prepend, jobs_after, one. cbn [trace outcome final fst].
      split; [reflexivity |]. split.
      * intros k. unfold count; simpl.
        destruct (String.eqb k k0); reflexivity.
      * split; [reflexivity |]. intros k. split; reflexivity.
  - cbn [orb andb].
    destruct (r_timeout (j_row job) * 1000000 <? _).
    + destruct (@reap_timed_out_run env k0 job j' cur
                  (advance env UtcNow
                     (advance env (ProcExitcode (j_process job)) w)) Hk)
        as (alive & ec & closed & pid & rows & Ht & Ho & Hj & _ & Hle).
      unfold prepend, jobs_after in *. cbn [trace outcome final].
      rewrite Ht, Ho, Hj, (Hle Hrows).
      split; [reflexivity |]. split.
      * intros k. unfold escalation, release, timed_out_result, one.
        destruct alive, closed; unfold count; simpl;
          destruct (String.eqb k k0); reflexivity.
      * split; [reflexivity |].
        intros k. unfold escalation, release, timed_out_result, one.
        destruct alive, closed;
          unfold count, is_finish, is_fail; simpl;
          destruct (String.eqb k k0); split; auto.
    + split; [reflexivity |]. split; [reflexivity |].
      intros k. repeat split; reflexivity.
Qed.

Hypothesis Harrive : messages_arrive env.

Lemma arrive_not_silent job w : found_silent env job w = false.
Proof.
  unfold found_silent.
  destruct (found_ready env job w); [| reflexivity].
  destruct (j_result job); [reflexivity |].
  destruct (answer env (PipeRecv (j_process job)) _) eqn:E; [reflexivity |].
  exfalso. exact (Harrive _ _ E).
Qed.

(** When every message arrives, an examined job is either reaped, popped
    once and reported once, or left in the dict, with neither pop nor
    report; a job found ready is reaped. *)
Lemma complete_job_returns k0 job cur w :
  contains k0 cur = true ->
  let r := run env (complete_job (k0, job)) cur w in
  let one k := if String.eqb k k0 then 1%nat else 0%nat in
  outcome r = Returned tt
  /\ ((jobs_after r = remove k0 cur
       /\ forall k,
           count (is_pop k) (trace r) = one k
           /\ (count (is_finish k) (trace r) + count (is_fail k) (trace r))%nat
              = one k
           /\ (found_ready env job w = false ->
               count (is_finish k) (trace r) = 0%nat))
      \/ (jobs_after r = cur
          /\ found_ready env job w = false
          /\ forall k,
              count (is_pop k) (trace r) = 0%nat
              /\ count (is_finish k) (trace r) = 0%nat
              /\ count (is_fail k) (trace r) = 0%nat)).
Proof.
  intros Hin r one.
  pose proof (@complete_job_counts k0 job cur w Hin) as H. cbv zeta in H.
  rewrite arrive_not_silent in H. fold r in H.
  destruct (found_ready env job w) eqn:Hready; cbn [orb] in H.
  - destruct H as (Hj & Hp & Ho & Hr).
    split; [exact Ho |]. left. split; [exact Hj |].
    intros k. destruct (Hr k). auto.
  - destruct (found_late env job w).
    + destruct H as (Hj & Hp & Ho & Hr).
      split; [exact Ho |]. left. split; [exact Hj |].
      intros k. destruct (Hr k). auto.
    + destruct H as (Ho & Hj & Hz).
      split; [exact Ho |]. right. auto.
Qed.

(** An exit code read before a run is still there after it. *)
Lemma exit_code_persists A (p : Main A) q c :
  forall jobs w,
    answer env (ProcExitcode q) w = Some c ->
    answer env (ProcExitcode q) (world_after (run env p jobs w)) = Some c.
Proof.
  unfold run, world_after.
  induction p as [a | e | R o k IH]; intros jobs w H; simpl; auto.
  destruct o as [o | x]; simpl; apply IH; auto.
Qed.

Lemma found_ready_persists A (p : Main A) job jobs w :
  found_ready env job w = true ->
  found_ready env job (world_after (run env p jobs w)) = true.
Proof.
  unfold found_ready.
  destruct (answer env (ProcExitcode (j_process job)) w) as [c |] eqn:Hc;
    [| discriminate].
  intros _. rewrite (exit_code_persists p _ jobs w Hc). reflexivity.
Qed.

(** The loop over the snapshot. *)
Lemma for_each_complete_job items :
  forall cur w,
    NoDup (keys items) ->
    NoDup (keys cur) ->
    (forall k, In k (keys items) -> contains k cur = true) ->
    let r := run env (for_each items complete_job) cur w in
    outcome r = Returned tt
    /\ (forall k,
          (count (is_pop k) (trace r) <= 1)%nat
          /\ (count (is_finish k) (trace r) + count (is_fail k) (trace r))%nat
             = count (is_pop k) (trace r)
          /\ (~ In k (keys items) -> count (is_pop k) (trace r) = 0%nat)
          /\ contains k (jobs_after r)
             = contains k cur && Nat.eqb (count (is_pop k) (trace r)) 0)
    /\ (forall k job,
          In (k, job) items -> found_ready env job w = true ->
          count (is_pop k) (trace r) = 1%nat).
Proof.
  induction items as [| [k0 job] items IH]; intros cur w Hnd Hcur Hsub r.
  - subst r. unfold run, jobs_after; simpl. split; [reflexivity |].
    split; [| intros k job' []].
    intros k. rewrite andb_true_r. repeat split; auto.
  - subst r. simpl in Hnd. inversion Hnd as [| ? ? Hnot Hnd']; subst.
    assert (Hin0 : contains k0 cur = true) by (apply Hsub; simpl; auto).
    destruct (@complete_job_returns k0 job cur w Hin0) as (Ho1 & Hcase).
    cbn [for_each].
    destruct (run_bind_returned env (complete_job (k0, job))
                (fun _ => for_each items complete_job) cur w Ho1)
      as (Ht & Ho & Hf).
    set (r1 := run env (complete_job (k0, job)) cur w) in *.
    assert (Hnd1 : NoDup (keys (jobs_after r1))).
    { destruct Hcase as [(Hj & _) | (Hj & _)]; rewrite Hj; auto.
      apply NoDup_remove; assumption. }
    assert (Hsub1 : forall k, In k (keys items) ->
                              contains k (jobs_after r1) = true).
    { intros k Hk. destruct Hcase as [(Hj & _) | (Hj & _)]; rewrite Hj.
      - rewrite contains_remove by assumption.
        rewrite Hsub by (simpl; auto). simpl.
        destruct (String.eqb k k0) eqn:E; auto.
        apply String.eqb_eq in E. subst k. contradiction.
      - apply Hsub. simpl; auto. }
    destruct (IH (jobs_after r1) (world_after r1) Hnd' Hnd1 Hsub1)
      as (Ho2 & Hk2 & Hlive2).
    set (r2 := run env (for_each items complete_job) (jobs_after r1)
                   (world_after r1)) in *.
    assert (Hj' : jobs_after
                    (run env (complete_job (k0, job);;
                              for_each items complete_job) cur w)
                  = jobs_after r2)
      by (unfold jobs_after; rewrite Hf; reflexivity).
    rewrite Ht, Ho, Hj'.
    split; [exact Ho2 |]. split.
    + intros k. destruct (Hk2 k) as (Hle2 & Heq2 & Hout2 & Hcont2).
      rewrite !count_app.
      destruct Hcase as [(Hj & Hcount) | (Hj & _ & Hcount)];
        destruct (Hcount k) as (Hp & Hr).
      * rewrite Hj in Hcont2.
        rewrite contains_remove in Hcont2 by assumption.
        destruct (String.eqb k k0) eqn:E.
        -- apply String.eqb_eq in E. subst k.
           rewrite (Hout2 Hnot) in *.
           destruct Hr as (Hr & _).
           repeat split; try lia.
           ++ intros Hk. exfalso. apply Hk. simpl; auto.
           ++ rewrite Hcont2, Hp. simpl. rewrite !andb_false_r. reflexivity.
        -- destruct Hr as (Hr & _).
           repeat split; try lia.
           ++ intros Hk. apply Decidable.not_or in Hk. destruct Hk as [_ Hk].
              rewrite (Hout2 Hk). lia.
           ++ rewrite Hcont2, Hp. simpl. rewrite andb_true_r. reflexivity.
      * destruct Hr as (Hf1 & Hf2).
        rewrite Hj in Hcont2.
        repeat split; try lia.
        -- intros Hk. apply Decidable.not_or in Hk. destruct Hk as [_ Hk].
           rewrite (Hout2 Hk). lia.
        -- rewrite Hcont2, Hp. reflexivity.
    + intros k job' Hin Hready. rewrite count_app.
      destruct Hin as [E | Hin].
      * inversion E; subst k job'.
        destruct (Hk2 k0) as (_ & _ & Hout2 & _). rewrite (Hout2 Hnot).
        destruct Hcase as [(_ & Hcount) | (_ & Hnotready & _)];
          [| congruence].
        destruct (Hcount k0) as (Hp & _). rewrite Hp, String.eqb_refl.
        reflexivity.
      * assert (Hne : String.eqb k k0 = false).
        { apply String.eqb_neq. intros ->. apply Hnot.
          apply in_map_iff. exists (k0, job'). auto. }
        assert (Hp1 : count (is_pop k) (trace r1) = 0%nat).
        { destruct Hcase as [(_ & Hcount) | (_ & _ & Hcount)];
            destruct (Hcount k) as (Hp & _); rewrite Hp, ?Hne; reflexivity. }
        rewrite Hp1.
        apply (Hlive2 k job' Hin).
        apply found_ready_persists. exact Hready.
Qed.

End Once.

Lemma not_reap_in_phase ph (t : DTrace) k :
  ph <> Reap ->
  Forall (fun e => phase_of e = Some ph \/ phase_of e = None) t ->
  count (is_pop k) t = 0%nat
  /\ count (is_finish k) t = 0%nat
  /\ count (is_fail k) t = 0%nat.
Proof.
  intros Hph H.
  repeat split; apply count_none; (eapply Forall_impl; [| exact H]);
    intros [R [o | x] r]; unfold is_finish, is_fail; simpl; auto;
    try (destruct o; auto; intros [H1 | H1]; simpl in H1; congruence);
    destruct x; auto; destruct q; auto;
    intros [H1 | H1]; simpl in H1; congruence.
Qed.

(** [complete_jobs], run on a dict, when every message arrives: it
    returns; every id is popped at most once, reported as often as
    popped, popped only if it was a key, and a key afterwards exactly
    when it was one and has not been popped; a job that has an exit code
    when [complete_jobs] starts is popped. *)
Lemma complete_jobs_counts (env : Env) :
  exit_codes_stick env ->
  store_single_rows env ->
  messages_arrive env ->
  forall jobs w,
    NoDup (keys jobs) ->
    let r := run env complete_jobs jobs w in
    outcome r = Returned tt
    /\ (forall k,
          (count (is_pop k) (trace r) <= 1)%nat
          /\ (count (is_finish k) (trace r) + count (is_fail k) (trace r))%nat
             = count (is_pop k) (trace r)
          /\ (count (is_pop k) (trace r) = 1%nat -> In k (keys jobs))
          /\ (In k (keys (jobs_after r))
              <-> In k (keys jobs) /\ count (is_pop k) (trace r) = 0%nat))
    /\ (forall k job,
          In (k, job) jobs -> found_ready env job w = true ->
          count (is_pop k) (trace r) = 1%nat).
Proof.
  intros Hstick Hrows Harrive jobs w Hnd r. subst r.
  destruct (@for_each_complete_job env Hstick Hrows Harrive jobs jobs w
              Hnd Hnd)
    as (Ho & Hk & Hlive).
  { intros k Hk. apply contains_In. exact Hk. }
  unfold complete_jobs, dict, run, jobs_after in *. simpl.
  split; [exact Ho |]. split.
  - intros k. destruct (Hk k) as (Hle & Heq & Hout & Hcont).
    rewrite !count_cons. simpl.
    repeat split; auto.
    + intros H1. destruct (in_dec string_dec k (keys jobs)) as [Hin | Hin];
        [exact Hin |].
      rewrite (Hout Hin) in H1. discriminate.
    + apply contains_In.
      match goal with
      | H : In _ (keys ?j) |- _ => apply contains_In in H; rewrite Hcont in H
      end.
      apply andb_true_iff in H. tauto.
    + match goal with
      | H : In _ (keys ?j) |- _ => apply contains_In in H; rewrite Hcont in H
      end.
      apply andb_true_iff in H. destruct H as [_ H].
      apply Nat.eqb_eq in H. exact H.
    + intros [Hin H0]. apply contains_In. rewrite Hcont.
      apply contains_In in Hin. rewrite Hin, H0. reflexivity.
  - intros k job Hin Hready. rewrite count_cons. simpl.
    apply (Hlive k job Hin Hready).
Qed.

(** In an iteration every id is reported as often as it is popped. *)
Lemma iteration_reports (env : Env) (args : Args) it jobs w k :
  exit_codes_stick env ->
  store_single_rows env ->
  messages_arrive env ->
  NoDup (keys jobs) ->
  let tr := trace (run env (iteration args it) jobs w) in
  (count (is_finish k) tr + count (is_fail k) tr)%nat = count (is_pop k) tr.
Proof.
  intros Hstick Hrows Harrive Hnd tr. subst tr. rewrite iteration_run.
  set (r1 := run env (release_lost args it) jobs w).
  set (r2 := run env complete_jobs jobs (world_after r1)).
  set (r3 := run env (discover args) (jobs_after r2) (world_after r2)).
  destruct (@not_reap_in_phase Sweep (trace r1) k) as (Hp1 & Hf1 & Hl1);
    [discriminate | apply phase_trace, release_lost_ops |].
  destruct (@not_reap_in_phase Discover (trace r3) k) as (Hp3 & Hf3 & Hl3);
    [discriminate | apply phase_trace, discover_ops |].
  destruct (complete_jobs_counts Hstick Hrows Harrive jobs (world_after r1) Hnd)
    as (_ & Hk & _).
  destruct (Hk k) as (_ & H2 & _). fold r2 in H2.
  destruct (outcome r2); cbn [trace]; rewrite !count_app; lia.
Qed.

(** Along the loop, from a dict without duplicate keys, every id is
    reported as often as it is popped. *)
Lemma main_loop_reports (env : Env) (args : Args) k n :
  exit_codes_stick env ->
  store_single_rows env ->
  messages_arrive env ->
  forall it jobs w,
    NoDup (keys jobs) ->
    let tr := trace (run env (main_loop args n it) jobs w) in
    (count (is_finish k) tr + count (is_fail k) tr)%nat = count (is_pop k) tr.
Proof.
  intros Hstick Hrows Harrive.
  induction n as [| n IH]; intros it jobs w Hnd tr; subst tr; [reflexivity |].
  cbn [main_loop].
  pose proof (@iteration_reports env args (it + 1) jobs w k Hstick Hrows
                Harrive Hnd)
    as Hit.
  cbv zeta in Hit.
  destruct (outcome (run env (iteration args (it + 1)) jobs w))
    as [[] | e] eqn:Ho1.
  - destruct (run_bind_returned env (iteration args (it + 1))
                (fun _ => main_loop args n (it + 1)) jobs w Ho1)
      as (Ht & _).
    rewrite Ht, !count_app.
    assert (Hnd' : NoDup (keys (jobs_after
                                  (run env (iteration args (it + 1)) jobs w)))).
    { rewrite <- replay_run. apply NoDup_replay. exact Hnd. }
    specialize (IH (it + 1) _
                   (world_after (run env (iteration args (it + 1)) jobs w))
                   Hnd').
    cbv zeta in IH. lia.
  - destruct (run_bind_raised env (iteration args (it + 1))
                (fun _ => main_loop args n (it + 1)) jobs w Ho1)
      as (Ht & _).
    rewrite Ht. exact Hit.
Qed.


Lemma settled_messages_arrive : messages_arrive (script_env settled).
Proof. intros p w. discriminate. Qed.


Example settled_job_reaped_once :
  let tr := trace (run (script_env settled) complete_jobs one_job 0%nat) in
  count (is_pop "a") tr = 1%nat
  /\ count (is_finish "a") tr = 1%nat
  /\ count (is_fail "a") tr = 0%nat.
Proof. repeat split. Qed.

Example hung_job_reaped_once :
  let tr := trace (run (script_env hung) complete_jobs one_job 0%nat) in
  count (is_pop "a") tr = 1%nat
  /\ count (is_finish "a") tr = 0%nat
  /\ count (is_fail "a") tr = 1%nat.
Proof. repeat split. Qed.

(** ** A child that sent nothing *)

(** X22: a job found ready whose child has sent nothing: it is popped,
    [recv] raises EOFError, and that ends the loop of [complete_jobs]:
    the job is not reported, the jobs behind it in the snapshot are not
    examined, and the dict has lost the job. *)
Theorem silent_child_halts_reaping (env : Env) k job j' rest jobs w c :
  lookup k jobs = Some j' ->
  j_result job = None ->
  answer env (ProcExitcode (j_process job)) w = Some c ->
  answer env (ProcExitcode (j_process job))
    (advance env (ProcExitcode (j_process job)) w) = Some c ->
  answer env (PipeRecv (j_process job))
    (advance env (ProcExitcode (j_process job))
       (advance env (ProcExitcode (j_process job)) w)) = None ->
  let p := j_process job in
  let r := run env (for_each ((k, job) :: rest) complete_job) jobs w in
  trace r
  = [Ev (Ext (ProcExitcode p)) (Some c);
     Ev (Reg (JobsPop k)) (Some j');
     Ev (Ext (ProcExitcode p)) (Some c);
     Ev (Ext (PipeRecv p)) None]
  /\ outcome r = Raised EOFError
  /\ jobs_after r = remove k jobs.
Proof.
  intros Hk Hres Hc Hc1 Hnone p r. subst r p. cbn [for_each].
  assert (H1 : run env (complete_job (k, job)) jobs w
               = mkRun [Ev (Ext (ProcExitcode (j_process job))) (Some c);
                        Ev (Reg (JobsPop k)) (Some j');
                        Ev (Ext (ProcExitcode (j_process job))) (Some c);
                        Ev (Ext (PipeRecv (j_process job))) None]
                       (Raised EOFError)
                       (remove k jobs,
                        advance env (PipeRecv (j_process job))
                          (advance env (ProcExitcode (j_process job))
                             (advance env (ProcExitcode (j_process job)) w)))).
  { rewrite complete_job_run, Hc.
    rewrite (@reap_ready_silent env k job j' jobs _ c Hk Hc1 Hres Hnone).
    reflexivity. }
  destruct (run_bind_raised env (complete_job (k, job))
              (fun _ => for_each rest complete_job) jobs w (e := EOFError))
    as (Ht & Ho & Hf).
  { rewrite H1. reflexivity. }
  unfold jobs_after. rewrite Ht, Ho, Hf, H1. auto.
Qed.

(** The theorem at the dict of "a" and "b", the child of "a" gone
    without a message: "a" is popped and not reported, and "b" is not
    examined. *)
Lemma silent_child_halts_two_jobs :
  outcome (run (script_env silent)
               (for_each two_jobs complete_job) two_jobs 0%nat)
  = Raised EOFError
  /\ jobs_after (run (script_env silent)
                     (for_each two_jobs complete_job) two_jobs 0%nat)
     = [("b", job_b)].
Proof.
  destruct (@silent_child_halts_reaping (script_env silent) "a" job_a job_a
              [("b", job_b)] two_jobs 0%nat 1
              eq_refl eq_refl eq_refl eq_refl eq_refl)
    as (_ & Ho & Hj).
  split; [exact Ho | exact Hj].
Defined.

(** C3, at a ready job the code does not report: the child of "a"
    exited with code 1 and sent nothing (its function called
    [sys.exit(1)]).  The job is popped, [recv] raises EOFError, and no
    [finish_job] or [fail_job] follows. *)
Lemma silent_child_not_reported :
  trace (run (script_env silent) (complete_job ("a", job_a)) one_job 0%nat)
  = [Ev (Ext (ProcExitcode 7%nat)) (Some 1);
     Ev (Reg (JobsPop "a")) (Some job_a);
     Ev (Ext (ProcExitcode 7%nat)) (Some 1);
     Ev (Ext (PipeRecv 7%nat)) None]
  /\ outcome (run (script_env silent) (complete_job ("a", job_a))
                  one_job 0%nat)
     = Raised EOFError
  /\ jobs_after (run (script_env silent) (complete_job ("a", job_a))
                     one_job 0%nat)
     = [].
Proof. repeat split. Qed.

(** C2, at a job that is removed and never reported: [complete_jobs]
    and the loop on the same job.  The id is removed from the dict, once,
    and reported not at all; the exception leaves [complete_jobs] and the
    loop. *)
Lemma silent_child_reaped_unreported :
  count (is_pop "a")
    (trace (run (script_env silent) complete_jobs one_job 0%nat)) = 1%nat
  /\ count (is_report "a")
       (trace (run (script_env silent) complete_jobs one_job 0%nat)) = 0%nat
  /\ jobs_after (run (script_env silent) complete_jobs one_job 0%nat) = []
  /\ outcome (run (script_env silent) complete_jobs one_job 0%nat)
     = Raised EOFError
  /\ outcome (run (script_env silent) (main_loop test_args 1 0) one_job 0%nat)
     = Raised EOFError.
Proof. repeat split. Qed.

(** ** Discovery *)

Lemma never_trace (f : Entry Op -> bool) env A (p : Main A) jobs w :
  ops_sat (op_never f) p -> count f (trace (run env p jobs w)) = 0%nat.
Proof.
  intros H. apply count_none. unfold run.
  eapply ops_sat_trace; [| exact H]. intros R o r Ho. apply Ho.
Qed.

Lemma handle_notify_no_bulk args n :
  ops_sat (op_never is_bulk_claim) (handle_notify args n).
Proof. ops. Qed.

Lemma start_claimed_no_bulk row :
  ops_sat (op_never is_bulk_claim) (start_claimed row).
Proof. ops. Qed.



(** A notification for a queue the worker does not consume, for a job
    already in the dict, or arriving when the dict is full, leads to no
    claim. *)
Example notify_filtered_out :
  count is_targeted_claim
    (trace (run (script_env settled)
                (handle_notify test_args (mkNotify 1 "job" ["other"; "b"]))
                one_job 0%nat)) = 0%nat
  /\ count is_targeted_claim
       (trace (run (script_env settled)
                   (handle_notify test_args (mkNotify 1 "job" ["default"; "a"]))
                   one_job 0%nat)) = 0%nat
  /\ count is_targeted_claim
       (trace (run (script_env settled)
                   (handle_notify (mkArgs ["default"] 1 "worker-1") notify_b)
                   one_job 0%nat)) = 0%nat.
Proof. repeat split. Qed.

Lemma fresh_rows_known known rows :
  (exists row, In row rows /\ In (r_id row) known) ->
  fresh_rows known rows = false.
Proof.
  revert known.
  induction rows as [| row0 rows IH]; intros known (row & Hin & Hknown).
  - destruct Hin.
  - simpl. destruct Hin as [-> | Hin].
    + assert (H : existsb (String.eqb (r_id row)) known = true).
      { apply existsb_exists. exists (r_id row).
        split; [assumption | apply String.eqb_refl]. }
      rewrite H. reflexivity.
    + rewrite (IH (known ++ [r_id row0])).
      * apply andb_false_r.
      * exists row. split; [assumption |]. apply in_or_app. auto.
Qed.

Section Discovery.

Variable env : Env.
Variable args : Args.

(** A row of a bulk claim, started: the assertion fails when its id is a
    key of the dict; otherwise the child is spawned and stored. *)
Lemma start_claimed_run row jobs w :
  let w1 := advance env (Print (Starting row)) w in
  let p := answer env (Spawn row) w1 in
  run env (start_claimed row) jobs w
  = if contains (r_id row) jobs
    then mkRun [Ev (Reg (JobsContains (r_id row))) true]
               (Raised AssertionError) (jobs, w)
    else mkRun [Ev (Reg (JobsContains (r_id row))) false;
                Ev (Ext (Print (Starting row))) tt;
                Ev (Ext (Spawn row)) p;
                Ev (Reg (JobsSet (r_id row) (mkJob row p None))) tt]
               (Returned tt)
               (setitem (r_id row) (mkJob row p None) jobs,
                advance env (Spawn row) w1).
Proof.
  unfold run, start_claimed, Job_init, assert, dict, call. simpl.
  destruct (contains (r_id row) jobs); simpl; [reflexivity |].
  destruct (answer env (Print (Starting row)) w). reflexivity.
Qed.

(** The loop over the rows of a bulk claim, run: it returns when the
    rows are fresh and raises the assertion at the first that is not; the
    dict grows by one entry per row started. *)
Lemma for_each_start_claimed rows :
  forall jobs w,
    let r := run env (for_each rows start_claimed) jobs w in
    outcome r = (if fresh_rows (keys jobs) rows
                 then Returned tt else Raised AssertionError)
    /\ len (jobs_after r) <= len jobs + Z.of_nat (List.length rows)
    /\ (fresh_rows (keys jobs) rows = true ->
        keys (jobs_after r) = keys jobs ++ map r_id rows).
Proof.
  induction rows as [| row rows IH]; intros jobs w r; subst r.
  - unfold run, jobs_after; simpl. rewrite app_nil_r.
    repeat split; auto. lia.
  - cbn [for_each fresh_rows]. rewrite <- contains_keys.
    rewrite run_bind. unfold then_run. rewrite start_claimed_run.
    rewrite length_cons, Nat2Z.inj_succ.
    destruct (contains (r_id row) jobs) eqn:Hc;
      unfold jobs_after; cbn [outcome trace final negb andb fst].
    + repeat split; try discriminate. lia.
    + set (p := answer env (Spawn row) _).
      set (w' := advance env (Spawn row) _).
      destruct (IH (setitem (r_id row) (mkJob row p None) jobs) w')
        as (Ho & Hlen & Hkeys).
      unfold run, jobs_after in Ho, Hlen, Hkeys.
      rewrite keys_setitem_fresh in Ho, Hkeys by assumption.
      rewrite Ho.
      repeat split.
      * rewrite len_setitem, Hc in Hlen. lia.
      * intros Hfresh. rewrite (Hkeys Hfresh), <- app_assoc. reflexivity.
Qed.

Lemma discover_run jobs w :
  let readable := answer env Select w in
  let w1 := advance env Select w in
  let notifies := answer env ConnPoll w1 in
  run env (discover args) jobs w
  = if readable
    then prepend [Ev (Ext Select) true; Ev (Ext ConnPoll) notifies]
           (run env (for_each notifies (handle_notify args)) jobs
                (advance env ConnPoll w1))
    else prepend [Ev (Ext Select) false] (run env (poll_claim args) jobs w1).
Proof.
  unfold run, discover, call, prepend. simpl.
  destruct (answer env Select w); reflexivity.
Qed.

Lemma poll_claim_run jobs w :
  let n := procs args - len jobs in
  let q := reserve_jobs_from_queues (queues args) (worker_id args) n in
  let rows := answer env (DbFetchall q) w in
  run env (poll_claim args) jobs w
  = if 0 <? n
    then prepend [Ev (Reg JobsLen) (len jobs); Ev (Ext (DbFetchall q)) rows]
           (run env (for_each rows start_claimed ;; db_commit) jobs
                (advance env (DbFetchall q) w))
    else mkRun [Ev (Reg JobsLen) (len jobs)] (Returned tt) (jobs, w).
Proof.
  unfold run, poll_claim, db_fetchall, dict, call, prepend. simpl.
  destruct (0 <? procs args - len jobs); reflexivity.
Qed.

End Discovery.

(** C8: the bulk claim [reserve_jobs_from_queues] is made exactly when
    the select reported nothing to read and [procs - len(jobs)] is
    positive, and it asks for that many jobs; the rows it returns are
    started one by one, and the loop raises AssertionError unless they are
    fresh, in particular when a row's id is already a key of the dict. *)
Theorem poll_path_contract (env : Env) (args : Args) jobs w :
  let r := run env (discover args) jobs w in
  let readable := answer env Select w in
  let n := procs args - len jobs in
  let q := reserve_jobs_from_queues (queues args) (worker_id args) n in
  let rows := answer env (DbFetchall q) (advance env Select w) in
  count is_bulk_claim (trace r)
  = (if negb readable && (0 <? n) then 1%nat else 0%nat)
  /\ (readable = false -> 0 < n ->
      (exists tail,
          trace r
          = [Ev (Ext Select) false; Ev (Reg JobsLen) (len jobs);
             Ev (Ext (DbFetchall q)) rows] ++ tail)
      /\ outcome r = (if fresh_rows (keys jobs) rows
                      then Returned tt else Raised AssertionError)
      /\ ((exists row, In row rows /\ In (r_id row) (keys jobs)) ->
          outcome r = Raised AssertionError))
  /\ (readable = false -> n <= 0 ->
      trace r = [Ev (Ext Select) false; Ev (Reg JobsLen) (len jobs)]
      /\ outcome r = Returned tt
      /\ jobs_after r = jobs).
Proof.
  intros r readable n q rows. subst r.
  rewrite discover_run. fold readable.
  destruct readable; simpl negb; cbn [andb].
  - split; [| split; discriminate].
    unfold prepend. cbn [trace]. rewrite count_app.
    rewrite (@never_trace is_bulk_claim env); [reflexivity |].
    apply ops_sat_for_each. intros x. apply handle_notify_no_bulk.
  - rewrite poll_claim_run. fold n q rows.
    destruct (0 <? n) eqn:Hn.
    + destruct (for_each_start_claimed env rows jobs
                  (advance env (DbFetchall q) (advance env Select w)))
        as (Ho & _ & _).
      assert (Hcount :
        count is_bulk_claim
          (trace (run env (for_each rows start_claimed ;; db_commit) jobs
                      (advance env (DbFetchall q) (advance env Select w))))
        = 0%nat).
      { apply never_trace, ops_sat_bind.
        - apply ops_sat_for_each. intros x. apply start_claimed_no_bulk.
        - intros _. ops. }
      assert (Hout :
        outcome (run env (for_each rows start_claimed ;; db_commit) jobs
                     (advance env (DbFetchall q) (advance env Select w)))
        = (if fresh_rows (keys jobs) rows
           then Returned tt else Raised AssertionError)).
      { rewrite run_bind. unfold then_run. rewrite Ho.
        destruct (fresh_rows (keys jobs) rows); [| reflexivity].
        unfold db_commit, call; simpl.
        match goal with
        | |- context [answer env DbCommit ?w] =>
            destruct (answer env DbCommit w)
        end.
        reflexivity. }
      unfold prepend. cbn [trace outcome final].
      split; [| split].
      * rewrite !count_app, Hcount. reflexivity.
      * intros _ _. split; [| split].
        -- eexists. reflexivity.
        -- exact Hout.
        -- intros Hdup. rewrite Hout, (fresh_rows_known _ _ Hdup). reflexivity.
      * intros _ Hle. apply Z.ltb_lt in Hn. lia.
    + split; [reflexivity |]. split.
      * intros _ Hpos. apply Z.ltb_ge in Hn. lia.
      * intros _ _. repeat split; reflexivity.
Qed.

(** A bulk claim that returns the job "a", already in the dict: the
    worker halts on the assertion, before any print, spawn or commit. *)
Example duplicate_claim_halts :
  let r := run (script_env repeating) (discover test_args) one_job 0%nat in
  outcome r = Raised AssertionError
  /\ trace r
     = [Ev (Ext Select) false;
        Ev (Reg JobsLen) 1;
        Ev (Ext (DbFetchall (reserve_jobs_from_queues ["default"] "worker-1" 3)))
           [test_row "a"];
        Ev (Reg (JobsContains "a")) true]
  /\ jobs_after r = one_job.
Proof. repeat split. Qed.

(** ** The dict never outgrows [procs] *)

Lemma within_capacity_app limit (t1 t2 : DTrace) jobs :
  within_capacity limit (t1 ++ t2) jobs
  = within_capacity limit t1 jobs && within_capacity limit t2 (replay t1 jobs).
Proof.
  revert jobs. induction t1 as [| e t1 IH]; intros jobs; simpl; auto.
  rewrite IH, !andb_assoc. reflexivity.
Qed.

Lemma within_capacity_final limit (t : DTrace) jobs :
  within_capacity limit t jobs = true ->
  len jobs <= limit ->
  len (replay t jobs) <= limit.
Proof.
  revert jobs. induction t as [| e t IH]; intros jobs H Hlen; simpl; auto.
  simpl in H. apply andb_true_iff in H. destruct H as [H Ht].
  apply andb_true_iff in H. destruct H as [_ H].
  apply IH; auto. apply Z.leb_le. exact H.
Qed.

Ltac within_limit :=
  repeat (apply andb_true_iff; split);
  try reflexivity;
  try (apply Z.leb_le; lia);
  try (apply Z.ltb_lt; lia).

Section Capacity.

Variable env : Env.
Variable args : Args.

Let limit := procs args.

Local Abbreviation fits := (fits limit).
Local Abbreviation keeps_within := (@keeps_within env limit).

Lemma keeps_within_final Pre A (p : Main A) jobs w :
  keeps_within Pre p -> Pre jobs -> fits jobs ->
  fits (jobs_after (run env p jobs w)).
Proof.
  intros Hp Hpre Hfits. unfold fits. rewrite <- replay_run.
  apply within_capacity_final; auto.
Qed.

Lemma keeps_within_bind Pre A B (p : Main A) (f : A -> Main B) :
  (forall jobs, Pre jobs -> fits jobs) ->
  keeps_within Pre p ->
  (forall a, keeps_within fits (f a)) ->
  keeps_within Pre (bind p f).
Proof.
  intros Hfits Hp Hf jobs w Hpre.
  destruct (outcome (run env p jobs w)) as [a | e] eqn:Ho.
  - destruct (run_bind_returned env p f jobs w Ho) as (Ht & _).
    rewrite Ht, within_capacity_app, (Hp jobs w Hpre), replay_run.
    apply Hf. apply keeps_within_final with (Pre := Pre); auto.
  - destruct (run_bind_raised env p f jobs w Ho) as (Ht & _).
    rewrite Ht. apply Hp. exact Hpre.
Qed.

Lemma keeps_within_for_each X (l : list X) (body : X -> Main unit) :
  (forall x, keeps_within fits (body x)) ->
  keeps_within fits (for_each l body).
Proof.
  intros Hb. induction l as [| x l IH]; simpl.
  - intros jobs w _. reflexivity.
  - apply keeps_within_bind; auto.
Qed.

Lemma harmless_keeps_within A (p : Main A) :
  ops_sat (harmless limit) p -> keeps_within fits p.
Proof.
  intros Hp. unfold keeps_within, fits, run.
  induction Hp as [a | e | R o k Ho Hk IH]; intros jobs w Hfits;
    [reflexivity | reflexivity |].
  destruct (Ho jobs (op_answer o (jobs, w))) as (Hadm & Hlen).
  cbn [interp trace within_capacity].
  rewrite Hadm.
  replace (len (entry_update (Ev o (op_answer o (jobs, w))) jobs) <=? limit)
    with true by (symmetry; apply Z.leb_le; lia).
  cbn [andb].
  destruct o as [o | x]; cbn [op_next entry_update fst snd] in *;
    apply IH; lia.
Qed.

Lemma release_lost_keeps_within it : keeps_within fits (release_lost args it).
Proof. apply harmless_keeps_within. ops. Qed.

Lemma complete_jobs_keeps_within : keeps_within fits complete_jobs.
Proof. apply harmless_keeps_within. ops. Qed.

(** A notified job is claimed and stored only below the limit. *)
Lemma handle_notify_keeps_within n : keeps_within fits (handle_notify args n).
Proof.
  intros jobs w Hfits. unfold fits, limit in *.
  assert (Hle : (len jobs <=? procs args) = true) by (apply Z.leb_le; lia).
  unfold run, handle_notify, claim_notified, Job_init, db_fetchone,
    db_fetchall, db_commit, assert, dict, call.
  destruct (n_payload_split n) as [| queue [| job_id [| x l]]]; simpl;
    rewrite ?Hle; try reflexivity.
  destruct (in_queues queue (queues args)); simpl; [| reflexivity].
  rewrite Hle.
  destruct (contains job_id jobs) eqn:Hc; simpl; [reflexivity |].
  rewrite Hle.
  destruct (len jobs <? procs args) eqn:Hlt; simpl; [| reflexivity].
  unfold admitted; simpl. rewrite Hlt, Hle. simpl.
  match goal with
  | |- context [answer env (DbFetchall ?q) ?w] =>
      destruct (answer env (DbFetchall q) w) as [| row [| row' more]]
  end; simpl; rewrite ?Hle; try reflexivity.
  rewrite len_setitem, Hc. apply Z.ltb_lt in Hlt.
  replace (len jobs + 1 <=? procs args) with true
    by (symmetry; apply Z.leb_le; lia).
  reflexivity.
Qed.

(** The rows of a bulk claim are stored within the limit when there are
    no more of them than free places. *)
Lemma for_each_start_keeps_within rows :
  forall jobs w,
    len jobs + Z.of_nat (List.length rows) <= limit ->
    within_capacity limit
      (trace (run env (for_each rows start_claimed) jobs w)) jobs = true.
Proof.
  unfold limit.
  induction rows as [| row rows IH]; intros jobs w Hroom; [reflexivity |].
  rewrite length_cons, Nat2Z.inj_succ in Hroom.
  pose proof (len_nonneg jobs) as Hpos.
  cbn [for_each]. rewrite run_bind. unfold then_run.
  rewrite start_claimed_run.
  destruct (contains (r_id row) jobs) eqn:Hc; cbn [outcome trace final].
  - simpl. within_limit.
  - set (p := answer env (Spawn row) _).
    set (w' := advance env (Spawn row) _).
    pose proof (len_setitem (r_id row) (mkJob row p None) jobs) as Hset.
    rewrite Hc in Hset.
    rewrite within_capacity_app.
    apply andb_true_iff. split.
    + simpl. within_limit.
    + simpl. apply IH. lia.
Qed.

Hypothesis Hbulk : store_bulk_bounded env.

Lemma poll_claim_keeps_within : keeps_within fits (poll_claim args).
Proof.
  intros jobs w Hfits. unfold fits, limit in *.
  rewrite poll_claim_run.
  destruct (0 <? procs args - len jobs) eqn:Hn; cbn [trace prepend].
  - set (q := reserve_jobs_from_queues _ _ _).
    set (rows := answer env (DbFetchall q) w).
    assert (Hrows : Z.of_nat (List.length rows) <= procs args - len jobs).
    { apply Hbulk. apply Z.ltb_lt. exact Hn. }
    apply Z.ltb_lt in Hn.
    rewrite within_capacity_app. apply andb_true_iff. split.
    + unfold admitted. simpl. within_limit.
    + simpl replay.
      apply (@keeps_within_bind
               (fun jobs => len jobs + Z.of_nat (List.length rows) <= limit)
               unit unit (for_each rows start_claimed) (fun _ => db_commit)).
      * intros jobs' H. unfold fits. lia.
      * intros jobs' w' H. apply for_each_start_keeps_within. exact H.
      * intros _. apply harmless_keeps_within. ops.
      * unfold limit. lia.
  - simpl. within_limit.
Qed.

Lemma discover_keeps_within : keeps_within fits (discover args).
Proof.
  unfold discover.
  apply keeps_within_bind; [auto | apply harmless_keeps_within; ops |].
  intros [|].
  - apply keeps_within_bind; [auto | apply harmless_keeps_within; ops |].
    intros notifies. apply keeps_within_for_each.
    apply handle_notify_keeps_within.
  - apply poll_claim_keeps_within.
Qed.

Lemma iteration_keeps_within it : keeps_within fits (iteration args it).
Proof.
  unfold iteration.
  apply keeps_within_bind; [auto | apply release_lost_keeps_within |].
  intros _.
  apply keeps_within_bind; [auto | apply complete_jobs_keeps_within |].
  intros _. apply discover_keeps_within.
Qed.

Lemma main_loop_keeps_within n : forall it,
  keeps_within fits (main_loop args n it).
Proof.
  induction n as [| n IH]; intros it; simpl.
  - intros jobs w _. reflexivity.
  - apply keeps_within_bind; [auto | apply iteration_keeps_within |].
    intros _. apply IH.
Qed.

End Capacity.

(** ** The child's message *)

Section ChildFacts.

Variable cenv : ChildEnv.

Lemma sent_app (t1 t2 : list (Entry ChildOp)) :
  sent (t1 ++ t2) = sent t1 ++ sent t2.
Proof.
  induction t1 as [| e t1 IH]; simpl; auto.
  destruct (sent_by e); simpl; congruence.
Qed.

Lemma sends_of_app (t1 t2 : list (Entry ChildOp)) :
  sends_of (t1 ++ t2) = sends_of t1 ++ sends_of t2.
Proof.
  induction t1 as [| [R o r] t1 IH]; simpl; auto.
  destruct o; simpl; congruence.
Qed.

(** The body of the [try], run: its operations are those of the
    resolution and the call, it performs no send, and its outcome is
    that of the attempt, a value returned being wrapped with no error. *)
Lemma run_job_run payload w :
  let body := run_child cenv (run_job payload) w in
  trace body = resolution cenv payload w
  /\ sends_of (trace body) = []
  /\ sent (trace body) = []
  /\ outcome body
     = match attempt cenv payload w with
       | Returned v => Returned (mkMsg v None)
       | Raised e => Raised e
       end.
Proof.
  unfold run_child, run_job, attempt, resolution, raising.
  destruct (p_func payload) as [s |]; simpl; [| auto].
  destruct (rsplit_dot s) as [[m f] |]; simpl; [| auto].
  destruct (c_answer cenv (ImportModule m) w) as [mod_ | e]; simpl; [| auto].
  destruct (c_answer cenv (GetAttr mod_ f) _) as [func | e]; simpl; [| auto].
  destruct (c_answer cenv (CallFunc func _ _) _) as [v | e]; simpl; auto.
Qed.

Lemma run_child_bind A B (p : Child A) (f : A -> Child B) w :
  run_child cenv (bind p f) w
  = then_run (c_answer cenv) (c_advance cenv) (run_child cenv p w) f.
Proof. apply interp_bind. Qed.

(** [try: p except Exception ...], run. *)
Lemma run_child_try A (p : Child A) (h : exn -> option (Child A)) w :
  run_child cenv (try_except p h) w
  = let r := run_child cenv p w in
    match outcome r with
    | Returned a => r
    | Raised e =>
        match h e with
        | Some q =>
            let r' := run_child cenv q (final r) in
            mkRun (trace r ++ trace r') (outcome r') (final r')
        | None => r
        end
    end.
Proof.
  unfold run_child. revert w.
  induction p as [a | e | R o k IH]; intros w; simpl.
  - reflexivity.
  - destruct (h e) as [q |]; [| reflexivity].
    destruct (interp (c_answer cenv) (c_advance cenv) q w); reflexivity.
  - rewrite IH.
    destruct (outcome (interp (c_answer cenv) (c_advance cenv)
                         (k (c_answer cenv o w)) (c_advance cenv o w)))
      as [a | e] eqn:Ho; simpl; rewrite ?Ho; [reflexivity |].
    destruct (h e); simpl; rewrite ?Ho; reflexivity.
Qed.

End ChildFacts.


(** C6, at a job for which the child sends no message: its function
    raises SystemExit, which is not an instance of Exception; the child
    hands nothing to [send], and the exception ends [run]. *)
Lemma child_silent_on_system_exit :
  attempt (child_env (Raised (SystemExiting "SystemExit"))) test_payload tt
  = Raised (SystemExiting "SystemExit")
  /\ sends_of (trace (run_child (child_env (Raised (SystemExiting "SystemExit")))
                                (Job_run (test_row "a")) tt))
     = []
  /\ sent (trace (run_child (child_env (Raised (SystemExiting "SystemExit")))
                            (Job_run (test_row "a")) tt))
     = []
  /\ outcome (run_child (child_env (Raised (SystemExiting "SystemExit")))
                        (Job_run (test_row "a")) tt)
     = Raised (SystemExiting "SystemExit").
Proof. repeat split. Qed.

(** A job whose function returns what cannot be pickled: the message is
    handed to [send], which raises; nothing is sent. *)
Example child_silent_on_unpicklable :
  sends_of (trace (run_child unpicklable (Job_run (test_row "a")) tt))
  = [mkMsg (VObject "<function <lambda>>") None]
  /\ sent (trace (run_child unpicklable (Job_run (test_row "a")) tt)) = []
  /\ outcome (run_child unpicklable (Job_run (test_row "a")) tt)
     = Raised (UserException "PicklingError").
Proof. repeat split. Qed.

Example child_returns_passed :
  sent (trace (run_child (child_env (Returned (VStr "Passed")))
                         (Job_run (test_row "a")) tt))
  = [passed].
Proof. reflexivity. Qed.

Example child_raises_name_error :
  sent (trace (run_child (child_env (Raised (UserException "NameError")))
                         (Job_run (test_row "a")) tt))
  = [mkMsg VNone (Some "Traceback (most recent call last): ...")].
Proof. reflexivity. Qed.

Example child_unresolvable_reference :
  sent (trace (run_child (child_env (Returned VNone))
                         (Job_run (mkRow "a" (mkPayload (Some "nodot") None None)
                                         0 5)) tt))
  = [mkMsg VNone (Some "Traceback (most recent call last): ...")].
Proof. reflexivity. Qed.

(** C1: with a limit [procs] that is not negative and a store whose bulk
    claim for [n] jobs returns at most [n] rows, along any number of
    iterations from startup the dict never holds more than [procs] jobs,
    a job is claimed by notification only while the dict holds fewer than
    [procs], and a bulk claim asks for no more than [procs - len(jobs)]
    jobs. *)
Theorem capacity_invariant (env : Env) (args : Args) :
  0 <= procs args ->
  store_bulk_bounded env ->
  forall n w,
    let r := run env (main_loop args n 0) [] w in
    within_capacity (procs args) (trace r) [] = true
    /\ len (jobs_after r) <= procs args.
Proof.
  intros Hprocs Hbulk n w r. subst r.
  assert (Hfits : fits (procs args) []) by exact Hprocs.
  pose proof (@main_loop_keeps_within env args Hbulk n 0) as Hloop.
  split.
  - apply Hloop. exact Hfits.
  - apply (@keeps_within_final env args (fits (procs args)) unit
             (main_loop args n 0) [] w Hloop Hfits Hfits).
Qed.

Lemma pending_bulk_bounded : store_bulk_bounded (script_env pending).
Proof.
  intros qs wid n w Hn. simpl.
  pose proof (firstn_le_length (Z.to_nat n) pending_rows). lia.
Qed.

(** The theorem at scenario C: limit 4, five jobs pending, two
    iterations. *)
Lemma capacity_scenario_C :
  0 <= procs test_args
  /\ store_bulk_bounded (script_env pending)
  /\ within_capacity (procs test_args)
       (trace (run (script_env pending) (main_loop test_args 2 0) [] 0%nat)) []
     = true
  /\ len (jobs_after
            (run (script_env pending) (main_loop test_args 2 0) [] 0%nat))
     <= procs test_args.
Proof.
  split; [vm_compute; discriminate |].
  split; [exact pending_bulk_bounded |].
  apply (@capacity_invariant (script_env pending) test_args).
  - vm_compute; discriminate.
  - exact pending_bulk_bounded.
Defined.

(** Scenario C, evaluated: the first iteration claims four of the five
    pending jobs in one bulk claim for 4; the second, the dict being full,
    claims nothing. *)
Example scenario_C_claims :
  let r := run (script_env pending) (main_loop test_args 2 0) [] 0%nat in
  keys (jobs_after r) = ["b"; "c"; "d"; "e"]
  /\ count is_bulk_claim (trace r) = 1%nat
  /\ filter is_bulk_claim (trace r)
     = [Ev (Ext (DbFetchall
                   (reserve_jobs_from_queues ["default"] "worker-1" 4)))
           (firstn 4 pending_rows)]
  /\ outcome r = Returned tt.
Proof. repeat split. Qed.

(** * More of the worker *)

(** ** Notifications that do not unpack *)

(** X1: a notification whose payload does not split into exactly two
    tokens is printed and then raises ValueError at the unpacking: the
    dict is not consulted, nothing is claimed, and the notifications
    behind it in [conn.notifies] are not handled. *)
Theorem malformed_notification_halts (env : Env) (args : Args)
        n rest jobs w :
  List.length (n_payload_split n) <> 2%nat ->
  let r := run env (for_each (n :: rest) (handle_notify args)) jobs w in
  trace r = [Ev (Ext (Print (NotifyLine n))) tt]
  /\ outcome r = Raised ValueError
  /\ jobs_after r = jobs.
Proof.
  intros Hlen r. subst r.
  unfold run, jobs_after, handle_notify, call. cbn [for_each].
  destruct (n_payload_split n) as [| q [| j [| x l]]]; simpl in *;
    try (exfalso; apply Hlen; reflexivity);
    destruct (answer env (Print (NotifyLine n)) w); auto.
Qed.

Lemma malformed_notification_short :
  List.length (n_payload_split notify_short) <> 2%nat
  /\ outcome (run (script_env settled)
                  (for_each [notify_short; notify_b] (handle_notify test_args))
                  one_job 0%nat)
     = Raised ValueError.
Proof.
  split; [discriminate |].
  apply (@malformed_notification_halts (script_env settled) test_args
           notify_short [notify_b] one_job 0%nat).
  discriminate.
Defined.

(** ** Jobs that are not reaped, and how the others are *)

(** X2: a job that has no exit code and whose elapsed time does not
    exceed its timeout (a job exactly at its timeout included) is left
    alone: its exit code and the clock are read, and nothing else
    happens; the dict is unchanged. *)
Theorem unexpired_job_left_alone (env : Env) k job jobs w :
  answer env (ProcExitcode (j_process job)) w = None ->
  answer env UtcNow (advance env (ProcExitcode (j_process job)) w)
  - r_started_at (j_row job)
  <= r_timeout (j_row job) * 1000000 ->
  let p := j_process job in
  let r := run env (complete_job (k, job)) jobs w in
  trace r
  = [Ev (Ext (ProcExitcode p)) None;
     Ev (Ext UtcNow) (answer env UtcNow (advance env (ProcExitcode p) w))]
  /\ outcome r = Returned tt
  /\ jobs_after r = jobs.
Proof.
  intros Hc Hle p r. subst r p.
  rewrite complete_job_run, Hc.
  apply Z.ltb_ge in Hle. rewrite Hle. auto.
Qed.

(** The theorem at the test job, timeout 5, when the clock reads exactly
    5 seconds after its start. *)
Lemma unexpired_on_the_dot :
  jobs_after (run (script_env on_the_dot) (complete_job ("a", job_a))
                  one_job 0%nat)
  = one_job.
Proof.
  apply (@unexpired_job_left_alone (script_env on_the_dot) "a" job_a one_job
           0%nat eq_refl).
  vm_compute. discriminate.
Defined.

Lemma reap_ready_no_escalation k job :
  ops_sat (op_never is_escalation) (reap_ready k job).
Proof. ops. Qed.

(** X3: a job that has an exit code is reaped as ready whatever its
    timeout: the clock is not read and the process is neither terminated,
    killed nor closed, and the dispatcher does not sleep. *)
Theorem ready_job_not_escalated (env : Env) k job jobs w c :
  answer env (ProcExitcode (j_process job)) w = Some c ->
  count is_escalation (trace (run env (complete_job (k, job)) jobs w)) = 0%nat.
Proof.
  intros Hc. rewrite complete_job_run, Hc.
  unfold prepend. cbn [trace]. rewrite count_app.
  rewrite (@never_trace is_escalation env); [reflexivity |].
  apply reap_ready_no_escalation.
Qed.

(** The theorem at the test job, finished but read 6 seconds after its
    start, past its timeout of 5. *)
Lemma ready_late_not_escalated :
  count is_escalation
    (trace (run (script_env late) (complete_job ("a", job_a)) one_job 0%nat))
  = 0%nat.
Proof.
  apply (@ready_job_not_escalated (script_env late) "a" job_a one_job 0%nat 0).
  reflexivity.
Defined.

(** ** The property [result] *)

(** X4: the message of a job is read from the pipe at most once: a
    second reading of [result] reads the exit code again but not the
    pipe, and returns the message and the job of the first reading (or
    fails its assertion); and a reading of [result] of a job that has no
    exit code fails its assertion without touching the pipe. *)
Theorem result_read_once (env : Env) job jobs w :
  (count is_recv (trace (run env (result_twice job) jobs w)) <= 1)%nat
  /\ (forall res,
        outcome (run env (Job_result job) jobs w) = Returned res ->
        outcome (run env (result_twice job) jobs w) = Returned res
        \/ outcome (run env (result_twice job) jobs w) = Raised AssertionError)
  /\ (answer env (ProcExitcode (j_process job)) w = None ->
      trace (run env (Job_result job) jobs w)
      = [Ev (Ext (ProcExitcode (j_process job))) None]
      /\ outcome (run env (Job_result job) jobs w) = Raised AssertionError).
Proof.
  unfold run, result_twice, Job_result, pipe_recv, Job_ready, assert, call.
  simpl.
  destruct (answer env (ProcExitcode (j_process job)) w) as [c |]; simpl.
  - destruct (j_result job) as [m |] eqn:Hres; simpl.
    + destruct (answer env (ProcExitcode (j_process job)) _); simpl;
        rewrite ?Hres; simpl.
      * split; [unfold count; simpl; lia |].
        split; [| discriminate]. intros res H. left. exact H.
      * split; [unfold count; simpl; lia |].
        split; [| discriminate]. intros res H. right. reflexivity.
    + destruct (answer env (PipeRecv (j_process job)) _) as [m |]; simpl.
      * destruct (answer env (ProcExitcode (j_process job)) _); simpl.
        -- split; [unfold count; simpl; lia |].
           split; [| discriminate]. intros res H. left. exact H.
        -- split; [unfold count; simpl; lia |].
           split; [| discriminate]. intros res H. right. reflexivity.
      * split; [unfold count; simpl; lia |].
        split; discriminate.
  - split; [unfold count; simpl; lia |].
    split; [discriminate | auto].
Qed.

Example result_cached :
  trace (run (script_env settled) (result_twice job_a) one_job 0%nat)
  = [Ev (Ext (ProcExitcode 7%nat)) (Some 0);
     Ev (Ext (PipeRecv 7%nat)) (Some passed);
     Ev (Ext (ProcExitcode 7%nat)) (Some 0)]
  /\ outcome (run (script_env settled) (result_twice job_a) one_job 0%nat)
     = Returned (passed, mkJob (test_row "a") 7%nat (Some passed)).
Proof. split; reflexivity. Qed.

(** ** No child without an entry in the dict *)

Section Tracking.

Variable env : Env.
Variable args : Args.

Lemma tracks_bind A B (p : Main A) (f : A -> Main B) :
  tracks_children env p ->
  (forall a, tracks_children env (f a)) ->
  tracks_children env (bind p f).
Proof.
  intros Hp Hf jobs w.
  destruct (outcome (run env p jobs w)) as [a | e] eqn:Ho.
  - destruct (run_bind_returned env p f jobs w Ho) as (Ht & _).
    rewrite Ht, !count_app, Hp, Hf. reflexivity.
  - destruct (run_bind_raised env p f jobs w Ho) as (Ht & _).
    rewrite Ht. apply Hp.
Qed.

Lemma tracks_for_each X (l : list X) (body : X -> Main unit) :
  (forall x, tracks_children env (body x)) ->
  tracks_children env (for_each l body).
Proof.
  intros Hb. induction l as [| x l IH]; simpl.
  - intros jobs w. reflexivity.
  - apply tracks_bind; auto.
Qed.

(** A program that neither spawns nor stores. *)
Lemma tracks_quiet A (p : Main A) :
  ops_sat (op_never is_spawn) p ->
  ops_sat (op_never is_store) p ->
  tracks_children env p.
Proof.
  intros H1 H2 jobs w. rewrite !never_trace; auto.
Qed.

Lemma handle_notify_tracks n : tracks_children env (handle_notify args n).
Proof.
  intros jobs w.
  unfold run, handle_notify, claim_notified, Job_init, db_fetchone,
    db_fetchall, db_commit, assert, dict, call.
  destruct (n_payload_split n) as [| queue [| job_id [| x l]]]; simpl;
    try reflexivity.
  destruct (in_queues queue (queues args)); simpl; [| reflexivity].
  destruct (contains job_id jobs); simpl; [reflexivity |].
  destruct (len jobs <? procs args); simpl; [| reflexivity].
  match goal with
  | |- context [answer env (DbFetchall ?q) ?w] =>
      destruct (answer env (DbFetchall q) w) as [| row [| row' more]]
  end; reflexivity.
Qed.

Lemma start_claimed_tracks row : tracks_children env (start_claimed row).
Proof.
  intros jobs w. rewrite start_claimed_run.
  destruct (contains (r_id row) jobs); reflexivity.
Qed.

Lemma discover_tracks : tracks_children env (discover args).
Proof.
  unfold discover, poll_claim.
  apply tracks_bind; [apply tracks_quiet; ops |].
  intros [|].
  - apply tracks_bind; [apply tracks_quiet; ops |].
    intros notifies. apply tracks_for_each. apply handle_notify_tracks.
  - apply tracks_bind; [apply tracks_quiet; ops |].
    intros size. destruct (0 <? procs args - size).
    + apply tracks_bind; [apply tracks_quiet; ops |].
      intros rows. apply tracks_bind.
      * apply tracks_for_each. apply start_claimed_tracks.
      * intros _. apply tracks_quiet; ops.
    + intros jobs w. reflexivity.
Qed.

Lemma iteration_tracks it : tracks_children env (iteration args it).
Proof.
  unfold iteration.
  apply tracks_bind; [apply tracks_quiet; ops |].
  intros _. apply tracks_bind; [apply tracks_quiet; ops |].
  intros _. apply discover_tracks.
Qed.

End Tracking.

(** X5: along the loop, whatever the store, the children and the
    notifications do, the worker starts exactly as many children as it
    stores jobs in the dict: a child is started only on the way to its
    [jobs[...] = Job(row)], and neither the sweep nor the reaping starts
    one. *)
Theorem every_child_is_tracked (env : Env) (args : Args) n it jobs w :
  let tr := trace (run env (main_loop args n it) jobs w) in
  count is_spawn tr = count is_store tr
  /\ count is_spawn (trace (run env (release_lost args it) jobs w)) = 0%nat
  /\ count is_spawn (trace (run env complete_jobs jobs w)) = 0%nat.
Proof.
  split; [| split].
  - revert it jobs w. induction n as [| n IH]; intros it jobs w.
    + reflexivity.
    + cbn [main_loop].
      apply tracks_bind; [apply iteration_tracks |].
      intros _ jobs' w'. apply IH.
  - apply never_trace. ops.
  - apply never_trace. ops.
Qed.

Example scenario_C_children :
  let tr := trace (run (script_env pending) (main_loop test_args 2 0) [] 0%nat) in
  count is_spawn tr = 4%nat /\ count is_store tr = 4%nat.
Proof. split; reflexivity. Qed.

(** ** The jobs the reaping leaves *)

Lemma filter_keeps_all (k0 : JobId) (cur : Registry) :
  ~ In k0 (keys cur) ->
  filter (fun e => negb (String.eqb (fst e) k0)) cur = cur.
Proof.
  induction cur as [| [k j] cur IH]; simpl; auto.
  intros H. destruct (String.eqb k k0) eqn:E; simpl.
  - apply String.eqb_eq in E. subst k. exfalso. auto.
  - rewrite IH by tauto. reflexivity.
Qed.

Lemma remove_as_filter (k0 : JobId) (cur : Registry) :
  NoDup (keys cur) ->
  remove k0 cur = filter (fun e => negb (String.eqb (fst e) k0)) cur.
Proof.
  induction cur as [| [k j] cur IH]; simpl; auto.
  intros H. inversion H as [| ? ? Hnot Hnd]; subst.
  rewrite (String.eqb_sym k0 k).
  destruct (String.eqb k k0) eqn:E; simpl.
  - apply String.eqb_eq in E. subst k.
    rewrite filter_keeps_all by assumption. reflexivity.
  - rewrite IH by assumption. reflexivity.
Qed.

Lemma filter_twice X (f g : X -> bool) (l : list X) :
  filter g (filter f l) = filter (fun x => f x && g x) l.
Proof.
  induction l as [| x l IH]; simpl; auto.
  destruct (f x); simpl; [destruct (g x) |]; rewrite IH; reflexivity.
Qed.

Section Survivors.

Variable env : Env.
Hypothesis Hstick : exit_codes_stick env.
Hypothesis Hrows : store_single_rows env.

Lemma for_each_complete_survivors items :
  forall cur w,
    NoDup (keys items) ->
    NoDup (keys cur) ->
    (forall k, In k (keys items) -> contains k cur = true) ->
    let r := run env (for_each items complete_job) cur w in
    jobs_after r
    = filter (fun e => Nat.eqb (count (is_pop (fst e)) (trace r)) 0) cur.
Proof.
  induction items as [| [k0 job] items IH]; intros cur w Hnd Hcur Hsub r;
    subst r.
  - unfold run, jobs_after; simpl.
    symmetry. apply forallb_filter_id. apply forallb_forall. auto.
  - simpl in Hnd. inversion Hnd as [| ? ? Hnot Hnd']; subst.
    assert (Hin0 : contains k0 cur = true) by (apply Hsub; simpl; auto).
    pose proof (@complete_job_counts env Hstick Hrows k0 job cur w Hin0)
      as Hcase.
    cbv zeta in Hcase. cbn [for_each].
    set (r1 := run env (complete_job (k0, job)) cur w) in *.
    assert (Hcount : (jobs_after r1 = remove k0 cur
                      /\ forall k, count (is_pop k) (trace r1)
                                   = if String.eqb k k0 then 1%nat else 0%nat)
                     \/ (jobs_after r1 = cur
                         /\ forall k, count (is_pop k) (trace r1) = 0%nat)).
    { destruct (found_ready env job w || found_late env job w).
      - left. destruct Hcase as (Hj & Hp & _). auto.
      - right. destruct Hcase as (_ & Hj & Hz). split; [exact Hj |].
        intros k. apply Hz. }
    assert (Hone : jobs_after r1
                   = filter (fun e => Nat.eqb (count (is_pop (fst e))
                                                 (trace r1)) 0) cur).
    { destruct Hcount as [(Hj & Hp) | (Hj & Hp)]; rewrite Hj.
      - rewrite remove_as_filter by assumption.
        apply filter_ext. intros [k j]. cbn [fst]. rewrite Hp.
        destruct (String.eqb k k0); reflexivity.
      - symmetry. apply forallb_filter_id. apply forallb_forall.
        intros [k j] _. cbn [fst]. rewrite Hp. reflexivity. }
    destruct (outcome r1) as [[] | e] eqn:Ho1.
    + destruct (run_bind_returned env (complete_job (k0, job))
                  (fun _ => for_each items complete_job) cur w Ho1)
        as (Ht & _ & Hf).
      fold r1 in Ht, Hf.
      assert (Hnd1 : NoDup (keys (jobs_after r1))).
      { destruct Hcount as [(Hj & _) | (Hj & _)]; rewrite Hj; auto.
        apply NoDup_remove; assumption. }
      assert (Hsub1 : forall k, In k (keys items) ->
                                contains k (jobs_after r1) = true).
      { intros k Hk. destruct Hcount as [(Hj & _) | (Hj & _)]; rewrite Hj.
        - rewrite contains_remove by assumption.
          rewrite Hsub by (simpl; auto). simpl.
          destruct (String.eqb k k0) eqn:E; auto.
          apply String.eqb_eq in E. subst k. contradiction.
        - apply Hsub. simpl; auto. }
      pose proof (IH (jobs_after r1) (world_after r1) Hnd' Hnd1 Hsub1) as H2.
      cbv zeta in H2.
      set (r2 := run env (for_each items complete_job) (jobs_after r1)
                     (world_after r1)) in *.
      unfold jobs_after at 1. rewrite Hf. fold (jobs_after r2).
      rewrite Ht, H2, Hone, filter_twice.
      apply filter_ext. intros [k j]. cbn [fst].
      rewrite count_app.
      destruct (count (is_pop k) (trace r1)); reflexivity.
    + destruct (run_bind_raised env (complete_job (k0, job))
                  (fun _ => for_each items complete_job) cur w Ho1)
        as (Ht & _ & Hf).
      fold r1 in Ht, Hf.
      unfold jobs_after at 1. rewrite Hf. fold (jobs_after r1).
      rewrite Ht. exact Hone.
Qed.

End Survivors.

(** X6: [complete_jobs] changes the dict only by removing the jobs it
    pops: the jobs it leaves are those it has not popped, each with the
    [Job] it had, in the order they were in. *)
Theorem reaping_keeps_survivors (env : Env) jobs w :
  exit_codes_stick env ->
  store_single_rows env ->
  NoDup (keys jobs) ->
  let r := run env complete_jobs jobs w in
  jobs_after r
  = filter (fun e => Nat.eqb (count (is_pop (fst e)) (trace r)) 0) jobs.
Proof.
  intros Hstick Hrows Hnd r. subst r.
  pose proof (@for_each_complete_survivors env Hstick Hrows jobs jobs w Hnd Hnd)
    as H.
  unfold complete_jobs, dict, run, jobs_after in *. simpl.
  rewrite H.
  - apply filter_ext. intros e. rewrite count_cons. reflexivity.
  - intros k Hk. apply contains_In. exact Hk.
Qed.

Lemma mixed_exit_codes_stick : exit_codes_stick (script_env mixed).
Proof. intros p c R x w H. exact H. Qed.

Lemma mixed_single_rows : store_single_rows (script_env mixed).
Proof. intros q w _. simpl. lia. Qed.

(** The theorem at a dict of two jobs, "a" finished and "b" running:
    "b" is left, with its [Job]. *)
Lemma reaping_keeps_b :
  NoDup (keys two_jobs)
  /\ jobs_after (run (script_env mixed) complete_jobs two_jobs 0%nat)
     = [("b", job_b)].
Proof.
  assert (Hnd : NoDup (keys two_jobs)).
  { repeat constructor; simpl; intuition discriminate. }
  split; [exact Hnd |].
  rewrite (@reaping_keeps_survivors (script_env mixed) two_jobs 0%nat
             mixed_exit_codes_stick mixed_single_rows Hnd).
  reflexivity.
Defined.

(** * The command line and the function reference *)

Lemma split_comma_nonempty s : split_comma s <> [].
Proof.
  destruct s as [| c s]; simpl; [discriminate |].
  destruct (is_comma c); [discriminate |].
  destruct (split_comma s); discriminate.
Qed.

Lemma in_queues_In queue qs : in_queues queue qs = true <-> In queue qs.
Proof.
  unfold in_queues. rewrite existsb_exists. split.
  - intros (x & Hx & E). apply String.eqb_eq in E. subst x. exact Hx.
  - intros H. exists queue. split; [exact H | apply String.eqb_refl].
Qed.

(** X7: [args.queues.split(',')] cuts the option at every comma and
    nowhere else: joining the queues with commas gives the option back,
    no queue name holds a comma, and there is one queue more than there
    are commas (so never none: the empty option gives the one queue "").
    A queue whose name holds a comma is therefore never among the
    worker's queues, whatever the option. *)
Theorem queues_split_at_commas (queues_arg : string) (processes : Z)
        (worker : string) :
  let qs := queues (parse_args queues_arg processes worker) in
  String.concat "," qs = queues_arg
  /\ Forall (fun q => has_char ","%char q = false) qs
  /\ List.length qs = Datatypes.S (count_char ","%char queues_arg)
  /\ (forall queue, has_char ","%char queue = true -> in_queues queue qs = false).
Proof.
  cbn [queues parse_args].
  assert (H : String.concat "," (split_comma queues_arg) = queues_arg
              /\ Forall (fun q => has_char ","%char q = false)
                        (split_comma queues_arg)
              /\ List.length (split_comma queues_arg)
                 = Datatypes.S (count_char ","%char queues_arg)).
  { induction queues_arg as [| c s (IH1 & IH2 & IH3)].
    - repeat split. repeat constructor.
    - pose proof (split_comma_nonempty s) as Hne.
      cbn [split_comma count_char]. unfold is_comma.
      rewrite (Ascii.eqb_sym ","%char c).
      destruct (Ascii.eqb c ","%char) eqn:E.
      + apply Ascii.eqb_eq in E. subst c.
        destruct (split_comma s) as [| piece pieces]; [congruence |].
        cbn [String.concat List.length] in *.
        repeat split.
        * rewrite IH1. reflexivity.
        * constructor; [reflexivity | exact IH2].
        * rewrite IH3. reflexivity.
      + destruct (split_comma s) as [| piece pieces]; [congruence |].
        apply Forall_cons_iff in IH2. destruct IH2 as [Hp Hps].
        cbn [String.concat List.length] in *.
        repeat split.
        * destruct pieces; rewrite <- IH1; reflexivity.
        * constructor; [| exact Hps].
          cbn [has_char]. rewrite (Ascii.eqb_sym ","%char c), E. exact Hp.
        * exact IH3. }
  destruct H as (H1 & H2 & H3). repeat split; auto.
  intros queue Hq.
  destruct (in_queues queue (split_comma queues_arg)) eqn:Hin; [| reflexivity].
  apply in_queues_In in Hin. rewrite Forall_forall in H2.
  rewrite (H2 queue Hin) in Hq. discriminate.
Qed.

Example queues_examples :
  queues (default_args "host-1") = ["default"]
  /\ queues (parse_args "mail,reports" 4 "w") = ["mail"; "reports"]
  /\ queues (parse_args "" 4 "w") = [""]
  /\ queues (parse_args "a,,b," 4 "w") = ["a"; ""; "b"; ""].
Proof. repeat split. Qed.

Lemma rsplit_dot_none s : has_char "."%char s = false -> rsplit_dot s = None.
Proof.
  induction s as [| c s IH]; [reflexivity |].
  cbn [has_char rsplit_dot]. rewrite (Ascii.eqb_sym "."%char c).
  destruct (Ascii.eqb c "."%char); cbn [orb]; [discriminate |].
  intros H. rewrite IH by assumption. reflexivity.
Qed.

(** X8: the split of a function reference at its last dot: when there is
    a dot, the two parts joined by a dot are the reference and the
    function part holds no dot (the module part may); when there is none,
    there is no split.  Conversely a module path and a dotless function
    name, joined, split back into the two. *)
Theorem rsplit_dot_last_dot (s : string) :
  match rsplit_dot s with
  | Some (m, f) =>
      s = (m ++ "." ++ f)%string /\ has_char "."%char f = false
  | None => has_char "."%char s = false
  end
  /\ (forall m f,
        has_char "."%char f = false ->
        rsplit_dot (m ++ "." ++ f)%string = Some (m, f)).
Proof.
  split.
  - induction s as [| c s IH]; [reflexivity |].
    cbn [rsplit_dot has_char].
    destruct (rsplit_dot s) as [[m f] |].
    + destruct IH as (-> & Hf). split; [reflexivity | exact Hf].
    + rewrite (Ascii.eqb_sym "."%char c).
      destruct (Ascii.eqb c "."%char) eqn:E; cbn [orb].
      * apply Ascii.eqb_eq in E. subst c. split; [reflexivity | exact IH].
      * exact IH.
  - intros m f Hf. induction m as [| c m IH].
    + cbn [String.append rsplit_dot].
      rewrite (rsplit_dot_none f Hf). reflexivity.
    + cbn [String.append rsplit_dot] in *. rewrite IH. reflexivity.
Qed.

Example rsplit_dot_examples :
  rsplit_dot "test.test" = Some ("test", "test")
  /\ rsplit_dot "pkg.mod.func" = Some ("pkg.mod", "func")
  /\ rsplit_dot "nodot" = None
  /\ rsplit_dot "mod." = Some ("mod", "")
  /\ rsplit_dot ".func" = Some ("", "func").
Proof. repeat split. Qed.

(** * The child's use of the function reference *)

(** X9: what [Job.run] does with the payload, whatever the child's
    surroundings answer.  Its operations are, in this order: the import
    of the module part of "func", split at its last dot; the lookup of
    the function part in the module the import returned; the call of the
    function the lookup returned, with the payload's "args" and "kwargs"
    ([[]] and [{}] when the key is missing); each only when the one
    before returned; and after them nothing but the formatting of a
    traceback and the send.  So it imports at most one module and calls
    at most one function, and with no "func", or one without a dot,
    nothing is imported, looked up or called. *)
Theorem job_function_resolution (cenv : ChildEnv) (row : Row)
        (w : CWorld cenv) :
  let payload := r_payload row in
  let tr := trace (run_child cenv (Job_run row) w) in
  (exists tail,
      tr = resolution cenv payload w ++ tail
      /\ forallb is_reporting tail = true)
  /\ (List.length (imports_of tr) <= 1)%nat
  /\ (List.length (calls_of tr) <= 1)%nat
  /\ (forall called, In called (calls_of tr) ->
        called = (get_default (p_args payload) [],
                  get_default (p_kwargs payload) [])
        /\ exists s m f,
             p_func payload = Some s /\ rsplit_dot s = Some (m, f)
             /\ imports_of tr = [m] /\ getattrs_of tr = [f])
  /\ ((forall s, p_func payload = Some s -> rsplit_dot s = None) ->
      imports_of tr = [] /\ getattrs_of tr = [] /\ calls_of tr = []).
Proof.
  cbv zeta. unfold run_child, Job_run, run_job, resolution, raising.
  destruct (p_func (r_payload row)) as [s |]; cbn.
  2: { destruct (c_answer cenv (PipeSend _) _); cbn;
       (split; [eexists; split; reflexivity |]);
       (split; [| split; [| split]]; auto; intros called []). }
  destruct (rsplit_dot s) as [[m f] |] eqn:Hs; cbn.
  2: { destruct (c_answer cenv (PipeSend _) _); cbn;
       (split; [eexists; split; reflexivity |]);
       (split; [| split; [| split]]; auto; intros called []). }
  destruct (c_answer cenv (ImportModule m) w) as [mod_ | e]; cbn.
  2: { destruct (isinstance_Exception e); cbn;
       try (destruct (c_answer cenv (PipeSend _) _); cbn);
       (split; [eexists; split; reflexivity |]);
       (split; [| split; [| split]]; auto;
        [intros called [] | intros H; specialize (H s eq_refl); congruence]). }
  destruct (c_answer cenv (GetAttr mod_ f) _) as [func | e]; cbn.
  2: { destruct (isinstance_Exception e); cbn;
       try (destruct (c_answer cenv (PipeSend _) _); cbn);
       (split; [eexists; split; reflexivity |]);
       (split; [| split; [| split]]; auto;
        [intros called [] | intros H; specialize (H s eq_refl); congruence]). }
  destruct (c_answer cenv (CallFunc func _ _) _) as [v | e]; cbn.
  2: destruct (isinstance_Exception e); cbn.
  all: try (destruct (c_answer cenv (PipeSend _) _); cbn).
  all: (split; [eexists; split; reflexivity |]);
    (split; [| split; [| split]]; auto;
     [ intros called [<- | []]; split; [reflexivity |];
       exists s, m, f; auto
     | intros H; specialize (H s eq_refl); congruence ]).
Qed.

Example resolution_of_the_test_job :
  trace (run_child (child_env (Returned (VStr "Passed")))
                   (Job_run (test_row "a")) tt)
  = [Ev (ImportModule "test") (Returned 1%nat);
     Ev (GetAttr 1%nat "test") (Returned 2%nat);
     Ev (CallFunc 2%nat [] []) (Returned (VStr "Passed"));
     Ev (PipeSend passed) (Returned tt)].
Proof. reflexivity. Qed.

(** * [db.py] *)

(** ** The key of the connection *)

Lemma string_compare_trans a : forall b c,
  String.compare a b <> Gt -> String.compare b c <> Gt ->
  String.compare a c <> Gt.
Proof.
  induction a as [| x a IH]; intros [| y b] [| z c]; simpl; try congruence.
  unfold Ascii.compare.
  destruct (N.compare_spec (N_of_ascii x) (N_of_ascii y)) as [Exy | Lxy | Gxy];
    destruct (N.compare_spec (N_of_ascii y) (N_of_ascii z)) as [Eyz | Lyz | Gyz];
    destruct (N.compare_spec (N_of_ascii x) (N_of_ascii z)) as [Exz | Lxz | Gxz];
    try (apply IH); try (intros; congruence); try (intros; exfalso; lia).
Qed.

Lemma string_leb_trans a b c :
  String.leb a b = true -> String.leb b c = true -> String.leb a c = true.
Proof.
  unfold String.leb. intros Hab Hbc.
  pose proof (@string_compare_trans a b c) as H.
  destruct (String.compare a b), (String.compare b c), (String.compare a c);
    try reflexivity; try discriminate; exfalso; apply H; congruence.
Qed.

Lemma string_leb_false a b : String.leb a b = false -> String.leb b a = true.
Proof.
  intros H. destruct (String.leb_total a b) as [H' | H']; congruence.
Qed.

Lemma insert_sorted_comm a b l :
  Db.insert_sorted a (Db.insert_sorted b l)
  = Db.insert_sorted b (Db.insert_sorted a l).
Proof.
  induction l as [| c l IH]; simpl.
  - destruct (String.leb a b) eqn:Hab, (String.leb b a) eqn:Hba;
      try reflexivity.
    + rewrite (String.leb_antisym _ _ Hab Hba). reflexivity.
    + apply string_leb_false in Hab. congruence.
  - destruct (String.leb b c) eqn:Hbc, (String.leb a c) eqn:Hac; simpl;
      rewrite ?Hbc, ?Hac.
    + destruct (String.leb a b) eqn:Hab, (String.leb b a) eqn:Hba;
        try reflexivity.
      * rewrite (String.leb_antisym _ _ Hab Hba). reflexivity.
      * apply string_leb_false in Hab. congruence.
    + destruct (String.leb a b) eqn:Hab; [| reflexivity].
      rewrite (string_leb_trans _ _ _ Hab Hbc) in Hac. discriminate.
    + destruct (String.leb b a) eqn:Hba; [| reflexivity].
      rewrite (string_leb_trans _ _ _ Hba Hac) in Hbc. discriminate.
    + rewrite IH. reflexivity.
Qed.

Lemma sorted_permutation (o1 o2 : Db.Opts) :
  Permutation (map fst o1) (map fst o2) -> Db.sorted o1 = Db.sorted o2.
Proof.
  unfold Db.sorted.
  induction 1; simpl; try congruence. apply insert_sorted_comm.
Qed.

(** X10: the key under which a connection is kept depends on the names
    of the options only: two sets of options with the same names, in
    whatever order and with whatever values, have the same key; no
    options and an empty dict have the key of the empty tuple. *)
Theorem conn_key_ignores_values (hash : list string -> Z)
        (o1 o2 : Db.Opts) :
  Permutation (map fst o1) (map fst o2) ->
  Db._conn_key hash (Some o1) = Db._conn_key hash (Some o2)
  /\ Db._conn_key hash None = hash []
  /\ Db._conn_key hash (Some []) = hash [].
Proof.
  intros H. unfold Db._conn_key. simpl.
  rewrite (@sorted_permutation o1 o2 H). auto.
Qed.

Lemma conn_key_two_hosts :
  Db._conn_key (fun l => Z.of_nat (List.length l))
    (Some [("host", Db.OStr "db1"); ("port", Db.OInt 5432)])
  = Db._conn_key (fun l => Z.of_nat (List.length l))
      (Some [("port", Db.OInt 6543); ("host", Db.OStr "db2")]).
Proof.
  apply (@conn_key_ignores_values (fun l => Z.of_nat (List.length l))
           [("host", Db.OStr "db1"); ("port", Db.OInt 5432)]
           [("port", Db.OInt 6543); ("host", Db.OStr "db2")]).
  simpl. apply perm_swap.
Defined.

(** ** Runs of the module *)

Lemma conn_key_default hash (opts : option Db.Opts) :
  Db._conn_key hash (Some (get_default opts [])) = Db._conn_key hash opts.
Proof. reflexivity. Qed.

Ltac db_run :=
  unfold Db.run, Db.test_main, Db.fetchone, Db.commit, Db.rollback,
    Db.fetchall, Db.query, Db._get_ctx_connection, Db.connect, Db.environ,
    Db.int, Db.sys_raising, Db.sys, Db.ctx, Db.cached, perform in *;
  rewrite ?conn_key_default in *;
  cbn in *.

Lemma conns_get_set key c d :
  Db.conns_get key (Db.conns_set key c d) = Some c.
Proof.
  induction d as [| [key' c'] d IH]; simpl.
  - rewrite Z.eqb_refl. reflexivity.
  - destruct (Z.eqb key key') eqn:E; simpl; rewrite ?E, ?Z.eqb_refl; auto.
Qed.

(** One case for each answer the run depends on. *)
Ltac db_cases :=
  repeat (cbn in *;
          match goal with
          | H : Db.conns_get ?k ?d = _ |- context [Db.conns_get ?k ?d] =>
              rewrite H
          | |- context [Db.conns_get ?k (Db.conns_set ?k ?c ?d)] =>
              rewrite conns_get_set
          | H : Db.never_closed ?env
            |- context [Db.db_answer ?env (Db.ConnClosed ?c) ?w] =>
              rewrite (H c w)
          | |- context [match Db.db_answer ?env ?x ?w with _ => _ end] =>
              destruct (Db.db_answer env x w) eqn:?
          | |- context [snd (Db.db_answer ?env ?x ?w)] =>
              destruct (Db.db_answer env x w) as [? [? |]] eqn:?
          | |- context [match Db.conns_get ?k ?d with _ => _ end] =>
              destruct (Db.conns_get k d) eqn:?
          | |- context [if Db.isinstance_ProgrammingError ?e then _ else _] =>
              destruct (Db.isinstance_ProgrammingError e) eqn:?
          end);
  cbn in *.

(** The answer of a call that returns nothing. *)
Ltac db_units :=
  repeat match goal with
         | |- context [Db.db_answer ?env ?x ?w] =>
             match type of (Db.db_answer env x w) with
             | unit => destruct (Db.db_answer env x w)
             end
         end.

(** X11: [commit] and [rollback] on a thread that holds no connection
    for the options do nothing outside the module: no connection is
    opened, nothing is committed, rolled back or logged; they return. *)
Theorem nothing_to_commit (env : Db.DbEnv) (hash : list string -> Z)
        (opts : option Db.Opts) (s : Db.DbState env) :
  Db.cached (Db._conn_key hash opts) (fst s) = None ->
  let rc := Db.run (Db.commit hash opts) s in
  let rr := Db.run (Db.rollback hash opts) s in
  (outcome rc = Returned tt /\ forallb Db.on_ctx (trace rc) = true
   /\ snd (final rc) = snd s)
  /\ (outcome rr = Returned tt /\ forallb Db.on_ctx (trace rr) = true
      /\ snd (final rr) = snd s).
Proof.
  destruct s as [[d |] w]; intros H; db_run.
  - rewrite H. cbn. auto.
  - auto.
Qed.

Lemma nothing_to_commit_at_start :
  outcome (Db.run (Db.commit (fun _ => 0) None)
                  (None, tt : Db.DbWorld (Db.up (fun _ => false))))
  = Returned tt.
Proof.
  apply (@nothing_to_commit (Db.up (fun _ => false)) (fun _ => 0) None
           (None, tt)).
  reflexivity.
Defined.

(** ** [connect] *)

Lemma opt_get_set_same k v d : Db.opt_get k (Db.opt_set k v d) = Some v.
Proof.
  induction d as [| [k' v'] d IH]; simpl.
  - rewrite String.eqb_refl. reflexivity.
  - destruct (String.eqb k k') eqn:E; simpl;
      rewrite ?E, ?String.eqb_refl; auto.
Qed.

Lemma opt_get_set_other k k' v d :
  k <> k' -> Db.opt_get k (Db.opt_set k' v d) = Db.opt_get k d.
Proof.
  intros Hne. apply String.eqb_neq in Hne.
  induction d as [| [k'' v''] d IH]; simpl.
  - rewrite Hne. reflexivity.
  - destruct (String.eqb k' k'') eqn:E; simpl.
    + apply String.eqb_eq in E. subst k''. rewrite Hne. reflexivity.
    + rewrite IH. reflexivity.
Qed.

Lemma opt_get_update_other k (opts : Db.Opts) : forall conf,
  ~ In k (map fst opts) ->
  Db.opt_get k (Db.update conf opts) = Db.opt_get k conf.
Proof.
  unfold Db.update.
  induction opts as [| [k' v'] opts IH]; intros conf Hk; simpl; auto.
  rewrite IH by (simpl in Hk; tauto).
  apply opt_get_set_other. simpl in Hk. intros ->. tauto.
Qed.

Lemma opt_get_update_in k v (opts : Db.Opts) : forall conf,
  NoDup (map fst opts) -> In (k, v) opts ->
  Db.opt_get k (Db.update conf opts) = Some v.
Proof.
  unfold Db.update.
  induction opts as [| [k' v'] opts IH]; intros conf Hnd Hin; simpl.
  - destruct Hin.
  - simpl in Hnd. inversion Hnd as [| ? ? Hk Hnd']; subst.
    destruct Hin as [E | Hin].
    + inversion E; subst.
      pose proof (@opt_get_update_other k opts (Db.opt_set k v conf) Hk) as H.
      unfold Db.update in H. rewrite H. apply opt_get_set_same.
    + apply IH; assumption.
Qed.

Lemma opt_get_update_some k (opts : Db.Opts) conf :
  Db.opt_get k conf <> None -> Db.opt_get k (Db.update conf opts) <> None.
Proof.
  unfold Db.update. revert conf.
  induction opts as [| [k' v'] opts IH]; intros conf H; simpl; auto.
  apply IH. destruct (String.eqb_spec k k') as [-> | Hne].
  - rewrite opt_get_set_same. discriminate.
  - rewrite opt_get_set_other by assumption. exact H.
Qed.

(** X12: [connect] reads the five variables of the environment before
    it looks at its options: when one of them is not set, no connection
    is attempted and [connect] raises, KeyError or (a port read before
    that is no number) ValueError, whatever the options, also when they
    give the value themselves. *)
Theorem connect_needs_environment (env : Db.DbEnv) (opts : Db.Opts)
        (name : string) (s : Db.DbState env) :
  In name Db.pg_variables ->
  (forall w, Db.db_answer env (Db.Environ name) w = None) ->
  let r := Db.run (Db.connect opts) s in
  Db.connects_of (trace r) = []
  /\ (outcome r = Raised KeyError \/ outcome r = Raised ValueError).
Proof.
  intros Hin Hunset. destruct s as [cx w].
  simpl in Hin.
  destruct Hin as [<- | [<- | [<- | [<- | [<- | []]]]]];
    db_run; db_cases; rewrite ?Hunset in *; try discriminate; cbn; auto.
Qed.

Lemma connect_without_database :
  outcome (Db.run (Db.connect [("database", Db.OStr "jobs")])
                  (None, tt : Db.DbWorld Db.unset_database))
  = Raised KeyError
  \/ outcome (Db.run (Db.connect [("database", Db.OStr "jobs")])
                     (None, tt : Db.DbWorld Db.unset_database))
     = Raised ValueError.
Proof.
  apply (@connect_needs_environment Db.unset_database
           [("database", Db.OStr "jobs")] "PGDATABASE" (None, tt)).
  - simpl. tauto.
  - reflexivity.
Defined.

Lemma opt_get_absent k (opts : Db.Opts) :
  Db.opt_get k opts = None -> ~ In k (map fst opts).
Proof.
  induction opts as [| [k' v'] opts IH]; simpl; [tauto |].
  destruct (String.eqb_spec k k') as [-> | Hne]; [discriminate |].
  intros H [E | Hin]; [congruence | exact (IH H Hin)].
Qed.

Lemma update_standard host port database user password (opts : Db.Opts) :
  NoDup (map fst opts) ->
  let given := Db.update [("host", host); ("port", port);
                          ("database", database); ("user", user);
                          ("password", password);
                          ("cursor_factory", Db.RealDictCursor)] opts in
  (forall k v, In (k, v) opts -> Db.opt_get k given = Some v)
  /\ (forall k,
        In k ["host"; "port"; "database"; "user"; "password";
              "cursor_factory"] ->
        Db.opt_get k given <> None)
  /\ (Db.opt_get "cursor_factory" opts = None ->
      Db.opt_get "cursor_factory" given = Some Db.RealDictCursor).
Proof.
  intros Hnd given. subst given. split; [| split].
  - intros k v Hin. apply opt_get_update_in; assumption.
  - intros k Hk. apply opt_get_update_some. simpl in Hk.
    destruct Hk as [<- | [<- | [<- | [<- | [<- | [<- | []]]]]]];
      discriminate.
  - intros Hcf.
    rewrite opt_get_update_other by (apply opt_get_absent; exact Hcf).
    reflexivity.
Qed.

(** X13: [connect] asks for at most one connection, and the options it
    is given win over the environment: in what it passes to
    [psycopg2.connect], every option given has the value given, the six
    standard entries are all there, and the cursor factory is
    RealDictCursor unless an option replaces it. *)
Theorem options_override_environment (env : Db.DbEnv) (opts : Db.Opts)
        (s : Db.DbState env) :
  NoDup (map fst opts) ->
  let r := Db.run (Db.connect opts) s in
  (List.length (Db.connects_of (trace r)) <= 1)%nat
  /\ forall given, In given (Db.connects_of (trace r)) ->
       (forall k v, In (k, v) opts -> Db.opt_get k given = Some v)
       /\ (forall k,
             In k ["host"; "port"; "database"; "user"; "password";
                   "cursor_factory"] ->
             Db.opt_get k given <> None)
       /\ (Db.opt_get "cursor_factory" opts = None ->
           Db.opt_get "cursor_factory" given = Some Db.RealDictCursor).
Proof.
  intros Hnd. destruct s as [cx w]. db_run. db_cases.
  all: split; [auto |].
  all: intros given Hgiven; simpl in Hgiven;
    try (exfalso; exact Hgiven);
    destruct Hgiven as [<- | []];
    apply update_standard; exact Hnd.
Qed.

Lemma options_override_host :
  Forall (fun given => Db.opt_get "host" given = Some (Db.OStr "db1"))
         (Db.connects_of
            (trace (Db.run (Db.connect [("host", Db.OStr "db1")])
                           (None, tt : Db.DbWorld (Db.up (fun _ => false)))))).
Proof.
  apply Forall_forall. intros given Hgiven.
  assert (Hnd : NoDup (map fst [("host", Db.OStr "db1")]))
    by (repeat constructor; simpl; tauto).
  destruct (@options_override_environment (Db.up (fun _ => false))
              [("host", Db.OStr "db1")] (None, tt) Hnd) as [_ H].
  destruct (H given Hgiven) as [Hopt _].
  apply Hopt. simpl. auto.
Defined.

(** ** The connection of the thread *)

Section CtxConnection.

Variable env : Db.DbEnv.
Variable hash : list string -> Z.

(** [_get_ctx_connection] opens no cursor and commits nothing; it asks
    for at most one connection; what it returns is what [ctx] then holds
    under the key, and with [create] it is a connection. *)
Lemma get_ctx_connection_run opts create (s : Db.DbState env) :
  let r := Db.run (Db._get_ctx_connection hash opts create) s in
  let tr := trace r in
  (Db.commits_of tr = [] /\ Db.rollbacks_of tr = [] /\ Db.cursors_on tr = []
   /\ Db.opened tr = [] /\ Db.closed tr = []
   /\ (List.length (Db.connects_of tr) <= 1)%nat)
  /\ forall conn,
       outcome r = Returned conn ->
       conn = Db.cached (Db._conn_key hash opts) (fst (final r))
       /\ (create = true -> conn <> None).
Proof.
  destruct s as [[d |] w]; destruct create; db_run; db_cases.
  all: split; [repeat split; auto |].
  all: intros conn Hconn; inversion Hconn; subst;
    rewrite ?conns_get_set, ?Z.eqb_refl; split; congruence.
Qed.

(** A connection held and not closed is returned as it is. *)
Lemma get_ctx_connection_hit opts create (s : Db.DbState env) c :
  Db.cached (Db._conn_key hash opts) (fst s) = Some c ->
  Db.db_answer env (Db.ConnClosed c) (snd s) = false ->
  let r := Db.run (Db._get_ctx_connection hash opts create) s in
  outcome r = Returned (Some c) /\ Db.connects_of (trace r) = []
  /\ fst (final r) = fst s.
Proof.
  destruct s as [[d |] w]; intros Hc Hopen; db_run; [| discriminate].
  rewrite Hc. cbn. rewrite Hopen. cbn. auto.
Qed.

End CtxConnection.

(** X14: two sets of options with the same names share one connection:
    on a thread where no connection is found closed, once
    [_get_ctx_connection] has returned a connection for the first set,
    it returns that same connection for the second, without connecting,
    whatever the values of the second. *)
Theorem same_keys_share_connection (env : Db.DbEnv)
        (hash : list string -> Z) (o1 o2 : Db.Opts) (s : Db.DbState env) :
  Db.never_closed env ->
  Permutation (map fst o1) (map fst o2) ->
  let r1 := Db.run (Db._get_ctx_connection hash (Some o1) true) s in
  let r2 := Db.run (Db._get_ctx_connection hash (Some o2) true) (final r1) in
  forall conn,
    outcome r1 = Returned conn ->
    conn <> None /\ outcome r2 = Returned conn
    /\ Db.connects_of (trace r2) = [].
Proof.
  intros Hopen Hperm r1 r2 conn Hconn.
  destruct (get_ctx_connection_run hash (Some o1) true s) as [_ Hpost].
  destruct (Hpost conn Hconn) as [Hheld Hsome]. fold r1 in Hheld.
  specialize (Hsome eq_refl).
  destruct conn as [c |]; [| congruence].
  split; [exact Hsome |].
  assert (Hkey : Db._conn_key hash (Some o1) = Db._conn_key hash (Some o2)).
  { unfold Db._conn_key. simpl.
    rewrite (@sorted_permutation o1 o2 Hperm). reflexivity. }
  rewrite Hkey in Hheld.
  destruct (@get_ctx_connection_hit env hash (Some o2) true (final r1) c
              (eq_sym Hheld) (Hopen c _)) as (Hout & Hno & _).
  split; assumption.
Qed.

Lemma two_hosts_share_connection :
  outcome (Db.run (Db._get_ctx_connection (fun _ => 0)
                     (Some [("host", Db.OStr "db2")]) true)
                  (final (Db.run (Db._get_ctx_connection (fun _ => 0)
                                    (Some [("host", Db.OStr "db1")]) true)
                                 (None, tt : Db.DbWorld (Db.up (fun _ => false))))))
  = Returned (Some 1%nat)
  /\ Db.connects_of
       (trace (Db.run (Db._get_ctx_connection (fun _ => 0)
                         (Some [("host", Db.OStr "db2")]) true)
                      (final (Db.run (Db._get_ctx_connection (fun _ => 0)
                                        (Some [("host", Db.OStr "db1")]) true)
                                     (None, tt : Db.DbWorld (Db.up (fun _ => false)))))))
     = [].
Proof.
  apply (@same_keys_share_connection (Db.up (fun _ => false)) (fun _ => 0)
           [("host", Db.OStr "db1")] [("host", Db.OStr "db2")] (None, tt)).
  - intros c w. reflexivity.
  - simpl. apply Permutation_refl.
  - reflexivity.
Defined.

(** X15: a connection held by the thread and found closed is replaced,
    also by [commit], which otherwise opens none: [commit] connects with
    the options, and when that succeeds it is the new connection that
    is committed and that [ctx] holds from then on; when connecting
    raises, [commit] raises, nothing is committed and [ctx] still holds
    the closed connection. *)
Theorem closed_connection_replaced (env : Db.DbEnv)
        (hash : list string -> Z) (opts : option Db.Opts)
        (s : Db.DbState env) (c : Db.Conn) :
  Db.cached (Db._conn_key hash opts) (fst s) = Some c ->
  Db.db_answer env (Db.ConnClosed c) (snd s) = true ->
  let r := Db.run (Db.commit hash opts) s in
  let fresh := Db.run (Db.connect (get_default opts []))
                      (fst s, Db.db_advance env (Db.ConnClosed c) (snd s)) in
  Db.connects_of (trace r) = Db.connects_of (trace fresh)
  /\ match outcome fresh with
     | Returned c' =>
         outcome r = Returned tt /\ Db.commits_of (trace r) = [c']
         /\ Db.cached (Db._conn_key hash opts) (fst (final r)) = Some c'
     | Raised e =>
         outcome r = Raised e /\ Db.commits_of (trace r) = []
         /\ Db.cached (Db._conn_key hash opts) (fst (final r)) = Some c
     end.
Proof.
  destruct s as [[d |] w]; intros Hc Hclosed; db_run; [| discriminate].
  rewrite Hc. cbn. rewrite Hclosed. db_cases.
  all: db_units; rewrite ?conns_get_set; auto.
Qed.

Lemma stale_connection_replaced :
  Db.commits_of
    (trace (Db.run (Db.commit (fun _ => 0) None)
                   (Some [(0, 7%nat)],
                    tt : Db.DbWorld (Db.up (fun c => Nat.eqb c 7)))))
  = [1%nat].
Proof.
  apply (@closed_connection_replaced (Db.up (fun c => Nat.eqb c 7))
           (fun _ => 0) None (Some [(0, 7%nat)], tt) 7%nat);
    reflexivity.
Defined.

(** ** The cursor of a query *)

Lemma cursors_on_app t1 t2 :
  Db.cursors_on (t1 ++ t2) = Db.cursors_on t1 ++ Db.cursors_on t2.
Proof.
  induction t1 as [| [R [o | x] r] t1 IH]; simpl; auto.
  destruct x; simpl; congruence.
Qed.

Lemma commits_of_app t1 t2 :
  Db.commits_of (t1 ++ t2) = Db.commits_of t1 ++ Db.commits_of t2.
Proof.
  induction t1 as [| [R [o | x] r] t1 IH]; simpl; auto.
  destruct x; simpl; congruence.
Qed.

Lemma connects_of_app t1 t2 :
  Db.connects_of (t1 ++ t2) = Db.connects_of t1 ++ Db.connects_of t2.
Proof.
  induction t1 as [| [R [o | x] r] t1 IH]; simpl; auto.
  destruct x; simpl; congruence.
Qed.

(** X16: however a query goes, the cursor it opens is closed: [query]
    opens at most one cursor, closes the cursors it opened and no other,
    and when it opened one the close is the last thing it does, whether
    the statement or the iteration raised or not. *)
Theorem cursor_always_closed (env : Db.DbEnv) (hash : list string -> Z)
        (q : Db.Statement) (conn : option Db.Conn)
        (opts : option Db.Opts) (name : option string)
        (s : Db.DbState env) :
  let tr := trace (Db.run (Db.query hash q conn opts name) s) in
  Db.closed tr = Db.opened tr
  /\ (List.length (Db.opened tr) <= 1)%nat
  /\ (Db.opened tr = [] \/ List.last (map Db.is_close tr) false = true).
Proof.
  destruct s as [[d |] w]; destruct conn as [c |]; db_run; db_cases.
  all: repeat split; auto.
Qed.

(** X17: what [fetchall] returns on a connection it is given: the rows
    of the cursor when the iteration ends by itself, and also when it
    ends with ProgrammingError, which is swallowed; another exception of
    the iteration goes on, and so does every exception of the statement
    itself, ProgrammingError included.  [ctx] is not touched and no
    connection is opened. *)
Theorem fetchall_returns_rows (env : Db.DbEnv) (hash : list string -> Z)
        (q : Db.Statement) (c : Db.Conn) (opts : option Db.Opts)
        (s : Db.DbState env) :
  let r := Db.run (Db.fetchall hash q (Some c) opts) s in
  let cur := Db.db_answer env (Db.ConnCursor c None) (snd s) in
  let w1 := Db.db_advance env (Db.ConnCursor c None) (snd s) in
  match Db.db_answer env (Db.CursorExecute cur q) w1 with
  | Raised e => outcome r = Raised e
  | Returned _ =>
      let rows := Db.db_answer env (Db.CursorRows cur)
                    (Db.db_advance env (Db.CursorExecute cur q) w1) in
      match snd rows with
      | None => outcome r = Returned (fst rows)
      | Some e =>
          if Db.isinstance_ProgrammingError e
          then outcome r = Returned (fst rows)
          else outcome r = Raised e
      end
  end
  /\ fst (final r) = fst s
  /\ Db.connects_of (trace r) = []
  /\ Db.cursors_on (trace r) = [c].
Proof.
  destruct s as [cx w]. db_run. db_cases.
  all: repeat split; auto.
Qed.

(** ** A statement and its commit *)

Section FetchCommit.

Variable env : Db.DbEnv.
Variable hash : list string -> Z.

(** [fetchall] on the connection of the thread commits nothing and
    connects at most once; when it returns, its cursor was on the
    connection [ctx] then holds. *)
Lemma fetchall_run q opts (s : Db.DbState env) :
  let r := Db.run (Db.fetchall hash q None opts) s in
  Db.commits_of (trace r) = []
  /\ (List.length (Db.connects_of (trace r)) <= 1)%nat
  /\ forall rows,
       outcome r = Returned rows ->
       exists c,
         Db.cursors_on (trace r) = [c]
         /\ Db.cached (Db._conn_key hash opts) (fst (final r)) = Some c.
Proof.
  destruct s as [[d |] w]; db_run; db_cases.
  all: split; [reflexivity |]; split; [auto |].
  all: intros rows Hrows; try discriminate.
  all: eexists; split; [reflexivity |];
    rewrite ?conns_get_set, ?Z.eqb_refl; auto.
Qed.

(** [commit] on a connection held and not closed. *)
Lemma commit_hit opts (s : Db.DbState env) c :
  Db.cached (Db._conn_key hash opts) (fst s) = Some c ->
  Db.db_answer env (Db.ConnClosed c) (snd s) = false ->
  let r := Db.run (Db.commit hash opts) s in
  outcome r = Returned tt /\ Db.commits_of (trace r) = [c]
  /\ Db.cursors_on (trace r) = [] /\ Db.connects_of (trace r) = [].
Proof.
  destruct s as [[d |] w]; intros Hc Hopen; db_run; [| discriminate].
  rewrite Hc. cbn. rewrite Hopen. cbn. db_units. auto.
Qed.

End FetchCommit.

(** X18: a statement and the commit that follows it, as the worker and
    [test.py] write them ([db.fetchall(...); db.commit()]), meet on one
    connection: on a thread where no connection is found closed, when
    both return, the cursor of the statement was opened on one
    connection, that very connection is committed, once, and at most
    one connection was opened on the way. *)
Theorem commit_follows_fetchall (env : Db.DbEnv) (hash : list string -> Z)
        (q : Db.Statement) (opts : option Db.Opts) (s : Db.DbState env) :
  Db.never_closed env ->
  let r := Db.run (Db.fetchall hash q None opts ;; Db.commit hash opts) s in
  outcome r = Returned tt ->
  exists c,
    Db.cursors_on (trace r) = [c] /\ Db.commits_of (trace r) = [c]
    /\ (List.length (Db.connects_of (trace r)) <= 1)%nat.
Proof.
  intros Hopen r. subst r. unfold Db.run. rewrite interp_bind.
  fold (Db.run (Db.fetchall hash q None opts) s).
  destruct (fetchall_run hash q opts s) as (Hnone & Hone & Hpost).
  unfold then_run.
  destruct (outcome (Db.run (Db.fetchall hash q None opts) s))
    as [rows | e] eqn:Hrows; cbn [trace outcome final]; [| discriminate].
  intros _.
  destruct (Hpost rows eq_refl) as (c & Hcur & Hheld).
  fold (Db.run (Db.commit hash opts)
               (final (Db.run (Db.fetchall hash q None opts) s))).
  destruct (@commit_hit env hash opts _ c Hheld (Hopen c _))
    as (_ & Hcommit & Hnocur & Hnoconn).
  exists c.
  rewrite cursors_on_app, commits_of_app, connects_of_app.
  rewrite Hcur, Hnocur, Hnone, Hcommit, Hnoconn, !app_nil_r.
  repeat split; auto.
Qed.

Lemma test_main_commits_its_insert :
  exists c,
    Db.cursors_on
      (trace (Db.run (Db.test_main (fun _ => 0%Z))
                     (None, tt : Db.DbWorld (Db.up (fun _ => false)))))
    = [c]
    /\ Db.commits_of
         (trace (Db.run (Db.test_main (fun _ => 0%Z))
                        (None, tt : Db.DbWorld (Db.up (fun _ => false)))))
       = [c]
    /\ (List.length
          (Db.connects_of
             (trace (Db.run (Db.test_main (fun _ => 0%Z))
                            (None, tt : Db.DbWorld (Db.up (fun _ => false))))))
        <= 1)%nat.
Proof.
  apply (@commit_follows_fetchall (Db.up (fun _ => false)) (fun _ => 0%Z)
           (Db.InsertJob "default" test_payload 3 5) None (None, tt)).
  - intros c w. reflexivity.
  - reflexivity.
Defined.
